(** * Aracari: text addressing and replacement in a DOM tree

    A shallow embedding of [src/utils.ts] (the regular-expression helpers)
    and of the [Aracari] class that uses them, followed by the properties of
    the specification that were checked against them.

    Conventions of the embedding.
    - A JavaScript string is a list of code units; the code units covered are
      those below 256 (the type [ascii]).
    - A regular expression object is its parsed pattern with its flags.  The
      platform operations on it ([String.prototype.match], [split], [test])
      are defined on top of a backtracking matcher that follows the order in
      which the ECMAScript matcher tries alternatives.
    - The DOM tree is a value; a reference to a node of the tree is the
      location of the node (the child indices from the root) together with
      the node found there.
    - A method that throws or assigns is a computation in the monad [M]:
      it takes the instance and returns an outcome and the instance
      afterwards. *)

From Stdlib Require Import Ascii String List ZArith Lia Bool Arith.
From Stdlib Require Import DecimalString DecimalNat DecimalFacts Sorted.

Set Warnings "-register-all".
Import ListNotations.

Open Scope list_scope.

(** ** Strings *)

Definition str := list ascii.

Definition lit (s : string) : str := list_ascii_of_string s.

Definition code (c : ascii) : N := N_of_ascii c.

Definition dquote : ascii := ascii_of_nat 34.
Definition backslash : ascii := ascii_of_nat 92.

Definition str_eqb (a b : str) : bool :=
  if list_eq_dec ascii_dec a b then true else false.

(** [s.charAt(i)]: the one-character string at [i], empty out of range. *)
Definition charAt (s : str) (i : nat) : str :=
  match nth_error s i with
  | Some c => [c]
  | None => []
  end.

(** ** Regular expressions

    The patterns built by the program use characters, one character class,
    the assertions [^], [$] and [\b], sequencing and alternation. *)

Inductive classItem :=
| CChar (c : ascii)
| CSpace.                        (* \s *)

Inductive regex :=
| Eps
| Chr (c : ascii)
| Cls (items : list classItem)   (* [...] *)
| Bol                            (* ^ *)
| Eol                            (* $ *)
| WordB                          (* \b *)
| Seq (r1 r2 : regex)
| Alt (r1 r2 : regex).           (* (?:r1|r2) *)

Record RegExp := mkRegExp {
  source : regex;
  ignoreCase : bool;             (* flag i *)
  global : bool                  (* flag g *)
}.

(** White space of [\s] among the code units below 256. *)
Definition isWhiteSpace (c : ascii) : bool :=
  let n := code c in
  ((9 <=? n) && (n <=? 13) || (n =? 32) || (n =? 160))%N.

(** Word characters of [\b]: letters, digits and the underscore. *)
Definition isWordChar (c : ascii) : bool :=
  let n := code c in
  ((48 <=? n) && (n <=? 57) || (65 <=? n) && (n <=? 90)
   || (97 <=? n) && (n <=? 122) || (n =? 95))%N.

(** [Canonicalize] of a code unit under the flag [i] (without [u]): the
    upper-case form when it is a single code unit, except that a unit from
    128 on is never mapped below 128.  The images of 181 and 255 lie above
    255 and are kept as numbers; 223 upper-cases to two units and is
    therefore its own canonical form. *)
Definition canonicalize (c : ascii) : N :=
  let n := code c in
  (if (97 <=? n) && (n <=? 122) then n - 32
   else if (224 <=? n) && (n <=? 254) && negb (n =? 247) then n - 32
   else if n =? 255 then 376
   else if n =? 181 then 924
   else n)%N.

Definition chr_eqb (ic : bool) (a b : ascii) : bool :=
  if ic then (canonicalize a =? canonicalize b)%N else (code a =? code b)%N.

Definition item_matches (ic : bool) (d : ascii) (it : classItem) : bool :=
  match it with
  | CChar c => chr_eqb ic c d
  | CSpace => isWhiteSpace d
  end.

Definition class_matches (ic : bool) (items : list classItem) (d : ascii) : bool :=
  existsb (item_matches ic d) items.

Definition isWordAt (c : option ascii) : bool :=
  match c with
  | Some c => isWordChar c
  | None => false
  end.

(** The ways [r] can match at a position, in the order in which the
    backtracking matcher finds them.  The position is given by the character
    before it ([None] at the start of the input) and the input from it on; a
    way to match is the text matched and the input left. *)
Fixpoint matchesAt (ic : bool) (r : regex) (prev : option ascii) (rest : str)
  : list (str * str) :=
  match r with
  | Eps => [([], rest)]
  | Chr c =>
      match rest with
      | d :: rest' => if chr_eqb ic c d then [([d], rest')] else []
      | [] => []
      end
  | Cls items =>
      match rest with
      | d :: rest' => if class_matches ic items d then [([d], rest')] else []
      | [] => []
      end
  | Bol => match prev with None => [([], rest)] | Some _ => [] end
  | Eol => match rest with [] => [([], rest)] | _ :: _ => [] end
  | WordB =>
      if xorb (isWordAt prev) (isWordAt (hd_error rest))
      then [([], rest)] else []
  | Seq r1 r2 =>
      flat_map (fun '(w1, rest1) =>
                  map (fun '(w2, rest2) => (w1 ++ w2, rest2))
                      (matchesAt ic r2 (last (map Some w1) prev) rest1))
               (matchesAt ic r1 prev rest)
  | Alt r1 r2 => matchesAt ic r1 prev rest ++ matchesAt ic r2 prev rest
  end.

(** The matcher's answer at one position: the first way to match. *)
Definition matchAt (re : RegExp) (prev : option ascii) (rest : str) : option str :=
  match matchesAt (ignoreCase re) (source re) prev rest with
  | (w, _) :: _ => Some w
  | [] => None
  end.

(** The successive results of [exec] on a global expression, from the
    position described by [prev] and [rest]: each search tries the positions
    from [lastIndex] on; after a match [lastIndex] is its end, one further
    when the match is empty.  [skip] counts the characters left before
    [lastIndex]. *)
Fixpoint execAll (re : RegExp) (prev : option ascii) (rest : str) (skip : nat)
  : list str :=
  match skip, rest with
  | S skip', c :: rest' => execAll re (Some c) rest' skip'
  | S _, [] => []
  | O, [] =>
      match matchAt re prev [] with
      | Some w => [w]
      | None => []
      end
  | O, c :: rest' =>
      match matchAt re prev rest with
      | Some w => w :: execAll re (Some c) rest' (Nat.pred (length w))
      | None => execAll re (Some c) rest' 0
      end
  end.

(** [s.match(re)] for a global [re]: all matches, or null when there is none. *)
Definition String_match (s : str) (re : RegExp) : option (list str) :=
  match execAll re None s 0 with
  | [] => None
  | ms => Some ms
  end.

(** [re.test(s)] for an expression without the flag [g]. *)
Definition RegExp_test (re : RegExp) (s : str) : bool :=
  match execAll re None s 0 with
  | [] => false
  | _ :: _ => true
  end.

(** The loop of [s.split(re)] on a non-empty [s].  [seg] holds, reversed,
    the characters from the end [p] of the last separator to the position
    [q] described by [prev] and [rest].  A match that ends at [p] is passed
    over; no match is tried at the end of the input. *)
Fixpoint splitLoop (re : RegExp) (prev : option ascii) (rest : str)
         (skip : nat) (seg : str) : list str :=
  match rest with
  | [] => [rev seg]
  | c :: rest' =>
      match skip with
      | S skip' => splitLoop re (Some c) rest' skip' seg
      | O =>
          match matchAt re prev rest with
          | None => splitLoop re (Some c) rest' 0 (c :: seg)
          | Some [] =>
              match seg with
              | [] => splitLoop re (Some c) rest' 0 [c]
              | _ :: _ => rev seg :: splitLoop re (Some c) rest' 0 [c]
              end
          | Some (_ :: w') => rev seg :: splitLoop re (Some c) rest' (length w') []
          end
      end
  end.

(** [s.split(re)] (the expression has no capturing group). *)
Definition String_split (s : str) (re : RegExp) : list str :=
  match s with
  | [] => match matchAt re None [] with Some _ => [] | None => [[]] end
  | _ :: _ => splitLoop re None s 0 []
  end.

(** The loop of [s.replace(re, f)] for a global [re]: every match [w] is
    replaced by [f w]. *)
Fixpoint replaceLoop (re : RegExp) (f : str -> str) (prev : option ascii)
         (rest : str) (skip : nat) : str :=
  match rest with
  | [] =>
      match skip with
      | O => match matchAt re prev [] with Some w => f w | None => [] end
      | S _ => []
      end
  | c :: rest' =>
      match skip with
      | S skip' => replaceLoop re f (Some c) rest' skip'
      | O =>
          match matchAt re prev rest with
          | None => c :: replaceLoop re f (Some c) rest' 0
          | Some [] => f [] ++ c :: replaceLoop re f (Some c) rest' 0
          | Some (x :: w') => f (x :: w') ++ replaceLoop re f (Some c) rest' (length w')
          end
      end
  end.

Definition String_replace (s : str) (re : RegExp) (f : str -> str) : str :=
  replaceLoop re f None s 0.

(** The pattern texts that the program hands to [new RegExp] are made of
    three pieces, each a complete sub-pattern, so that the concatenation of
    the texts is the sequence of the sub-patterns.  The middle piece is read
    by [parseAtoms]: a backslash followed by a syntax character is that
    character, any other character that is not a syntax character is itself;
    everything else (an unescaped syntax character, another escape) is
    outside the fragment read here and is reported as a syntax error. *)
Definition syntaxCharacters : str := lit "\^$.*+?()[]{}|".

Definition isSyntaxCharacter (c : ascii) : bool :=
  existsb (fun d => (code d =? code c)%N) syntaxCharacters.

Fixpoint parseAtoms (p : str) : option regex :=
  match p with
  | [] => Some Eps
  | c :: p' =>
      if (code c =? code backslash)%N then
        match p' with
        | d :: p'' =>
            if isSyntaxCharacter d
            then option_map (Seq (Chr d)) (parseAtoms p'')
            else None
        | [] => None
        end
      else if isSyntaxCharacter c then None
      else option_map (Seq (Chr c)) (parseAtoms p')
  end.

(** ** utils.ts *)

(** [reRegExpChar = /[\\^$.*+?()[\]{}|]/g] *)
Definition reRegExpChar : RegExp :=
  mkRegExp (Cls (map CChar (lit "\^$.*+?()[]{}|"))) false true.

(** [reHasRegExpChar = RegExp(reRegExpChar.source)] *)
Definition reHasRegExpChar : RegExp :=
  mkRegExp (source reRegExpChar) false false.

(** [wordBoundaryChars]: the full stop, the exclamation mark, the question
    mark, the apostrophe, the double quote, the hyphen, the comma and [\s], as
    the items of the character class in which they are always used. *)
Definition wordBoundaryChars : list classItem :=
  [CChar "."; CChar "!"; CChar "?"; CChar "'"; CChar dquote; CChar "-";
   CChar ","; CSpace].

Definition wordBoundaryStartsWith : RegExp :=
  mkRegExp (Seq Bol (Cls wordBoundaryChars)) false false.

Definition wordBoundaryEndsWith : RegExp :=
  mkRegExp (Seq (Cls wordBoundaryChars) Eol) false false.

(** [escapeRegExp]: a text that is not empty and has a character of
    [reRegExpChar] gets a backslash before each such character (the
    replacement text is a backslash and the match); any other text is
    returned as it is, the empty text for an empty one. *)
Definition escapeRegExp (text : str) : str :=
  if negb (str_eqb text []) && RegExp_test reHasRegExpChar text
  then String_replace text reRegExpChar (fun w => backslash :: w)
  else if negb (str_eqb text []) then text else [].

(** [new RegExp(pattern, "g")] is [None] when the constructor throws a
    [SyntaxError]. *)
Definition createRegExpSearch (search : str) (preserveWord : bool) : option RegExp :=
  let startDelimiter :=
    if preserveWord then Alt Bol (Cls wordBoundaryChars) else Eps in
  let endDelimiter :=
    if preserveWord then Alt Eol (Cls wordBoundaryChars) else Eps in
  match parseAtoms (escapeRegExp search) with
  | Some literal =>
      Some (mkRegExp (Seq startDelimiter (Seq literal endDelimiter)) false true)
  | None => None
  end.

(** [matchText] is [None] when the caller passes [undefined] (an index
    outside the array of matches).  [test] converts its argument to a string,
    so [undefined] is tested as the text "undefined". *)
Definition getSurroundingChars (matchText : option str) : str * str :=
  let tested := match matchText with Some m => m | None => lit "undefined" end in
  let chars := match matchText with Some m => m | None => [] end in
  let leadingChar :=
    if RegExp_test wordBoundaryStartsWith tested then charAt chars 0 else [] in
  let endingChar :=
    if RegExp_test wordBoundaryEndsWith tested
    then charAt chars (length chars - 1) else [] in
  (leadingChar, endingChar).

(** [joinArrayWith]: the [reduce] over the array with its index [i], from
    the empty text: the accumulator, then nothing when [i] is 0 and
    [onJoin({nextIndex: i})] otherwise, then the element. *)
Fixpoint joinArrayWith_from (i : nat) (arr : list str) (onJoin : nat -> str)
         (acc : str) : str :=
  match arr with
  | [] => acc
  | cur :: arr' =>
      joinArrayWith_from (S i) arr' onJoin
        (acc ++ (if i =? 0 then [] else onJoin i) ++ cur)
  end.

Definition joinArrayWith (arr : list str) (onJoin : nat -> str) : str :=
  joinArrayWith_from 0 arr onJoin [].

(** ** Numbers, addresses *)

(** A JavaScript number as the program meets it: an integer or [NaN].
    (Integers are exact here; a double is exact up to 2^53, far above the
    number of children a node can have.) *)
Inductive number :=
| NaN
| Num (z : Z).

(** [String(n)] for a child index. *)
Definition Number_toString (n : nat) : str :=
  lit (NilEmpty.string_of_uint (Nat.to_uint n)).

Definition isDigit (c : ascii) : bool :=
  let n := code c in ((48 <=? n) && (n <=? 57))%N.

Definition digitValue (c : ascii) : nat := N.to_nat (code c - 48).

Fixpoint trimStart (s : str) : str :=
  match s with
  | c :: s' => if isWhiteSpace c then trimStart s' else s
  | [] => []
  end.

Fixpoint takeDigits (s : str) : str :=
  match s with
  | c :: s' => if isDigit c then c :: takeDigits s' else []
  | [] => []
  end.

Definition digitsValue (ds : str) : nat :=
  fold_left (fun acc c => 10 * acc + digitValue c) ds 0.

(** [parseInt(s, 10)]: leading white space is dropped, a sign is read, then
    the longest run of decimal digits; [NaN] when that run is empty. *)
Definition parseInt (s : str) : number :=
  let s1 := trimStart s in
  let '(negative, s2) :=
    match s1 with
    | c :: s' =>
        if (code c =? code "-"%char)%N then (true, s')
        else if (code c =? code "+"%char)%N then (false, s')
        else (false, s1)
    | [] => (false, s1)
    end in
  match takeDigits s2 with
  | [] => NaN
  | ds =>
      let v := Z.of_nat (digitsValue ds) in
      Num (if negative then (- v)%Z else v)
  end.

(** [s.split(sep)] for a one-character separator. *)
Fixpoint String_splitOn (sep : ascii) (s : str) : list str :=
  match s with
  | [] => [[]]
  | c :: s' =>
      if (code c =? code sep)%N then [] :: String_splitOn sep s'
      else
        match String_splitOn sep s' with
        | seg :: segs => (c :: seg) :: segs
        | [] => [[c]]
        end
  end.

(** [arr.join(sep)] *)
Fixpoint Array_join (sep : str) (arr : list str) : str :=
  match arr with
  | [] => []
  | [a] => a
  | a :: arr' => a ++ sep ++ Array_join sep arr'
  end.

(** [arr.slice(start, end)]; [end] is [None] when it is not given. *)
Definition Array_slice {A} (arr : list A) (start : Z) (end_ : option Z) : list A :=
  let len := Z.of_nat (length arr) in
  let clamp (i : Z) := if (i <? 0)%Z then Z.max (len + i) 0 else Z.min i len in
  let k := clamp start in
  let final := match end_ with Some e => clamp e | None => len end in
  firstn (Z.to_nat (final - k)) (skipn (Z.to_nat k) arr).

(** [arr[i]] *)
Definition Array_get {A} (arr : list A) (i : Z) : option A :=
  if (i <? 0)%Z then None else nth_error arr (Z.to_nat i).

(** ** The DOM tree *)

Inductive Node :=
| Text (data : str)
| Comment (data : str)
| Element (children : list Node).

Definition TEXT_NODE : N := 3.

Definition nodeType (n : Node) : N :=
  match n with
  | Element _ => 1
  | Text _ => 3
  | Comment _ => 8
  end.

Definition childNodes (n : Node) : list Node :=
  match n with
  | Element cs => cs
  | Text _ | Comment _ => []
  end.

(** The concatenation of the data of the text nodes below a node. *)
Fixpoint descendantText (n : Node) : str :=
  match n with
  | Text d => d
  | Comment _ => []
  | Element cs => flat_map descendantText cs
  end.

Definition textContent (n : Node) : str :=
  match n with
  | Text d => d
  | Comment d => d
  | Element _ => descendantText n
  end.

(** A reference to a node of the tree: where it is and what is there. *)
Definition NodeRef := (list nat * Node)%type.

(** [parent.childNodes[childNth]] *)
Definition childAt (parent : NodeRef) (childNth : number) : option NodeRef :=
  match childNth with
  | NaN => None
  | Num z =>
      if (z <? 0)%Z then None
      else
        match nth_error (childNodes (snd parent)) (Z.to_nat z) with
        | Some child => Some (fst parent ++ [Z.to_nat z], child)
        | None => None
        end
  end.

(** [node.replaceWith(...new)] for the node at [loc] below [n], as the new
    value of [n].  The nodes of [new] are not nodes of the tree.  A node
    without a parent (an empty [loc]) is left alone. *)
Fixpoint replaceWith (n : Node) (loc : list nat) (new : list Node) : Node :=
  match loc, n with
  | i :: loc', Element cs =>
      match nth_error cs i with
      | Some c =>
          Element (firstn i cs
                   ++ match loc' with
                      | [] => new
                      | _ :: _ => [replaceWith c loc' new]
                      end
                   ++ skipn (S i) cs)
      | None => n
      end
  | _, _ => n
  end.

(** The node at a location. *)
Fixpoint nodeAt (n : Node) (loc : list nat) : option Node :=
  match loc with
  | [] => Some n
  | i :: loc' =>
      match nth_error (childNodes n) i with
      | Some c => nodeAt c loc'
      | None => None
      end
  end.

(** ** The class [Aracari] *)

Definition MappingEntry := (str * str)%type.    (* [text, address] *)
Definition Mapping := list MappingEntry.

Record Config := mkConfig {
  textNodeType : N;
  createTextNode : str -> Node
}.

(** [Partial<Config>] *)
Record Options := mkOptions {
  opt_textNodeType : option N;
  opt_createTextNode : option (str -> Node)
}.

Record ReplaceOptions := mkReplaceOptions {
  at_ : option str;
  preserveWord : option bool;
  replacementIndex : option Z;
  caseSensitive : option bool
}.

Record Aracari := mkAracari {
  root : option Node;
  mapping : Mapping;
  config : Config
}.

Inductive exn :=
| Error (message : str)
| TypeError
| SyntaxError.

(** The outcome of a method that reads the instance. *)
Definition result (A : Type) := (exn + A)%type.

(** A method that may assign to the instance or to the tree. *)
Definition M (A : Type) := Aracari -> result A * Aracari.

Definition ret {A} (a : A) : M A := fun this => (inr a, this).

Definition throw {A} (e : exn) : M A := fun this => (inl e, this).

Definition bind {A B} (m : M A) (f : A -> M B) : M B :=
  fun this =>
    match m this with
    | (inr a, this') => f a this'
    | (inl e, this') => (inl e, this')
    end.

(** A read of the instance, as a step of a method. *)
Definition read {A} (f : Aracari -> result A) : M A := fun this => (f this, this).

Definition modify (f : Aracari -> Aracari) : M unit := fun this => (inr tt, f this).

Notation "x <- m ;; k" := (bind m (fun x => k))
  (at level 61, m at next level, right associativity).

(** A parameter with a default value: [undefined] takes the default. *)
Definition orDefault {A} (d : A) (o : option A) : A :=
  match o with
  | Some a => a
  | None => d
  end.

(** The truth value of an array: an array is an object, and every object
    is true. *)
Definition Array_truthy {A} (arr : list A) : bool := true.

(** The truth value of a string. *)
Definition truthy (s : str) : bool :=
  match s with
  | [] => false
  | _ :: _ => true
  end.

(** [arr.flatMap((x, i) => f(x, i))], with the index of the first element. *)
Definition flatMap {A B} (f : A -> nat -> list B) : list A -> nat -> list B :=
  fix go (arr : list A) (i : nat) : list B :=
    match arr with
    | [] => []
    | x :: arr' => f x i ++ go arr' (S i)
    end.

(** [[...path, i].join(".")] *)
Definition encode (path : list nat) : str :=
  Array_join (lit ".") (map Number_toString path).

(** [getTextNodeMapping(parent, path)] *)
Fixpoint getTextNodeMapping (cfg : Config) (parent : Node) (path : list nat) : Mapping :=
  match parent with
  | Element cs =>
      flatMap (fun node i =>
                 if (nodeType node =? textNodeType cfg)%N
                 then [(textContent node, encode (path ++ [i]))]
                 else
                   match childNodes node with
                   | _ :: _ => getTextNodeMapping cfg node (path ++ [i])
                   | [] => []
                   end)
              cs 0
  | Text _ | Comment _ => []
  end.

(** [new Aracari(root, options)] *)
Definition constructor (root : Node + Mapping) (options : Options) : Aracari :=
  let config :=
    mkConfig
      (match opt_textNodeType options with
       | Some t => if (t =? 0)%N then TEXT_NODE else t
       | None => TEXT_NODE
       end)
      (orDefault Text (opt_createTextNode options)) in
  match root with
  | inr m => mkAracari None m config
  | inl r => mkAracari (Some r) (getTextNodeMapping config r []) config
  end.

Definition getText (this : Aracari) : str :=
  Array_join [] (map fst (mapping this)).

(** [getMappingsForText(text, caseSensitive = true, preserveWord = false)] *)
Definition getMappingsForText (this : Aracari) (text : str)
           (caseSensitive preserveWord : option bool) : result Mapping :=
  let caseSensitive := orDefault true caseSensitive in
  let preserveWord := orDefault false preserveWord in
  let delimiter := if preserveWord then WordB else Eps in
  match parseAtoms (escapeRegExp text) with
  | None => inl SyntaxError
  | Some literal =>
      let pattern :=
        mkRegExp (Seq delimiter (Seq literal delimiter))
                 (if caseSensitive then true else false) true in
      inr (filter (fun '(text, _) =>
                     match String_match text pattern with
                     | Some _ => true
                     | None => false
                     end)
                  (mapping this))
  end.

Definition getAddressForText (this : Aracari) (text : str)
           (caseSensitive preserveWord : option bool) : result (option str) :=
  match getMappingsForText this text (Some (orDefault true caseSensitive))
                           (Some (orDefault false preserveWord)) with
  | inl e => inl e
  | inr matchedNode =>
      inr (match (if Array_truthy matchedNode then nth_error matchedNode 0 else None) with
           | Some entry => Some (snd entry)
           | None => None
           end)
  end.

Definition getAddressesForText (this : Aracari) (text : str)
           (caseSensitive preserveWord : option bool) : result (option (list str)) :=
  match getMappingsForText this text (Some (orDefault true caseSensitive))
                           (Some (orDefault false preserveWord)) with
  | inl e => inl e
  | inr matchedNode =>
      inr (if Array_truthy matchedNode then Some (map snd matchedNode) else None)
  end.

Definition getMappingFromAddress (this : Aracari) (address : str) : option MappingEntry :=
  find (fun '(_, nodeAddress) => str_eqb nodeAddress address) (mapping this).

Definition getTextByAddress (this : Aracari) (address : str) : option str :=
  match getMappingFromAddress this address with
  | Some node => Some (fst node)
  | None => None
  end.

Definition isInSingleNode (this : Aracari) (text : str)
           (caseSensitive : option bool) : result bool :=
  match getAddressForText this text (Some (orDefault true caseSensitive)) None with
  | inl e => inl e
  | inr (Some address) => inr (truthy address)
  | inr None => inr false
  end.

(** [walkNodes(parent, path)] *)
Fixpoint walkNodes (parent : option NodeRef) (path : list number) : option NodeRef :=
  match path with
  | [] => parent
  | childNth :: newPath =>
      match parent with
      | None => None
      | Some p => walkNodes (childAt p childNth) newPath
      end
  end.

Definition getNodeByAddress (this : Aracari) (address : str) : option NodeRef :=
  let path := map parseInt (String_splitOn "."%char address) in
  walkNodes (option_map (fun r => ([], r)) (root this)) path.

Definition getTextNode (this : Aracari) (text : str)
           (caseSensitive preserveWord : option bool) : result (option NodeRef) :=
  match getAddressForText this text (Some (orDefault true caseSensitive))
                          (Some (orDefault false preserveWord)) with
  | inl e => inl e
  | inr (Some address) =>
      if truthy address then inr (getNodeByAddress this address) else inr None
  | inr None => inr None
  end.

Definition maybeCreateTextNode (this : Aracari) (text : str) : option Node :=
  match text with
  | [] => None
  | _ :: _ => Some (createTextNode (config this) text)
  end.

(** The [nodes] argument of [replaceText]: one node or an array of nodes. *)
Inductive NodesArg :=
| OneNode (n : Node)
| NodeArray (ns : list Node).

Definition notFoundMessage (text : str) : str :=
  lit "Text " ++ [dquote] ++ text ++ [dquote] ++ lit " not found in node in unknown".

(** The node that [replaceText] works on. *)
Definition targetNode (this : Aracari) (text : str) (options : ReplaceOptions)
  : result (option NodeRef) :=
  match at_ options with
  | Some (c :: a) => inr (getNodeByAddress this (c :: a))
  | Some [] | None =>
      getTextNode this text (Some (orDefault true (caseSensitive options)))
                  (preserveWord options)
  end.

(** [arr.filter((x) => x)] on an array of nodes and nulls. *)
Definition filterNull {A} (arr : list (option A)) : list A :=
  flat_map (fun x => match x with Some a => [a] | None => [] end) arr.

(** The list of nodes that takes the place of the node, from the matches
    and the pieces between them. *)
Definition replacementNodes (this : Aracari) (text : str) (nodes : NodesArg)
           (replacementIndex : Z) (textMatch contents : list str) : list Node :=
  let '(preChar, postChar) := getSurroundingChars (Array_get textMatch replacementIndex) in
  let preText :=
    joinArrayWith (Array_slice contents 0 (Some (replacementIndex + 1)%Z))
      (fun nextIndex =>
         let '(preChar, postChar) :=
           getSurroundingChars (nth_error textMatch (nextIndex - 1)) in
         preChar ++ text ++ postChar) in
  let postText :=
    joinArrayWith (Array_slice contents (replacementIndex + 1)%Z None)
      (fun nextIndex =>
         let '(preChar, postChar) :=
           getSurroundingChars (nth_error textMatch nextIndex) in
         preChar ++ text ++ postChar) in
  filterNull
    ([maybeCreateTextNode this (preText ++ preChar)]
     ++ map Some (match nodes with
                  | NodeArray ns => ns
                  | OneNode n => [n]
                  end)
     ++ [maybeCreateTextNode this (postChar ++ postText)]).

(** [replaceText(text, nodes, options)] *)
Definition replaceText (text : str) (nodes : NodesArg) (options : ReplaceOptions)
  : M unit :=
  let replacementIndex := orDefault 0%Z (replacementIndex options) in
  node <- read (fun this => targetNode this text options) ;;
  pattern <- match createRegExpSearch text (orDefault true (preserveWord options)) with
             | Some re => ret re
             | None => throw SyntaxError
             end ;;
  let textMatch :=
    match node with
    | Some (_, n) => String_match (textContent n) pattern
    | None => None
    end in
  match textMatch, node with
  | Some textMatch, Some (loc, n) =>
      let contents := String_split (textContent n) pattern in
      new <- read (fun this =>
                     inr (replacementNodes this text nodes replacementIndex
                                           textMatch contents)) ;;
      modify (fun this =>
                mkAracari
                  (match root this with
                   | Some r => Some (replaceWith r loc new)
                   | None => None
                   end)
                  (mapping this) (config this))
  | _, _ => throw (Error (notFoundMessage text))
  end.

(** [remap(mapping?)] *)
Definition remap (mapping : option Mapping) : M unit :=
  match mapping with
  | Some m => modify (fun this => mkAracari (root this) m (config this))
  | None =>
      fun this =>
        match root this with
        | Some r =>
            (inr tt, mkAracari (root this) (getTextNodeMapping (config this) r [])
                               (config this))
        | None => (inl TypeError, this)
        end
  end.

(** * Notions used in the statements *)

(** The text of a pattern made of ordinary characters. *)
Fixpoint literal (s : str) : regex :=
  match s with
  | [] => Eps
  | c :: s' => Seq (Chr c) (literal s')
  end.

(** A character as [escapeRegExp] writes it. *)
Definition escapeChar (c : ascii) : str :=
  if isSyntaxCharacter c then [backslash; c] else [c].

(** The boundary characters: the members of the class of
    [wordBoundaryChars]. *)
Definition isBoundaryChar (c : ascii) : bool :=
  class_matches false wordBoundaryChars c.

(** The expression that [createRegExpSearch] builds. *)
Definition searchPattern (search : str) (preserveWord : bool) : RegExp :=
  mkRegExp
    (Seq (if preserveWord then Alt Bol (Cls wordBoundaryChars) else Eps)
         (Seq (literal search)
              (if preserveWord then Alt Eol (Cls wordBoundaryChars) else Eps)))
    false true.

(** What the expression may take before the search text, after [pre]: under
    [preserveWord] nothing at the start of the text or one boundary
    character; nothing otherwise. *)
Definition leadOK (preserveWord : bool) (pre lead : str) : Prop :=
  if preserveWord
  then (lead = [] /\ pre = []) \/ (exists c, lead = [c] /\ isBoundaryChar c = true)
  else lead = [].

(** The same after the search text, before [post]. *)
Definition trailOK (preserveWord : bool) (trail post : str) : Prop :=
  if preserveWord
  then (trail = [] /\ post = []) \/ (exists c, trail = [c] /\ isBoundaryChar c = true)
  else trail = [].

(** The search text occurs in [s] in the way [createRegExpSearch] asks for. *)
Definition Flanked (preserveWord : bool) (search s : str) : Prop :=
  exists pre lead trail post,
    s = pre ++ (lead ++ search ++ trail) ++ post
    /\ leadOK preserveWord pre lead /\ trailOK preserveWord trail post.

(** The first character of a match when it is a boundary character, and
    the last one likewise: what [getSurroundingChars] reads. *)
Definition firstBoundary (m : str) : str :=
  match m with
  | c :: _ => if isBoundaryChar c then [c] else []
  | [] => []
  end.

Definition lastBoundary (m : str) : str :=
  match last (map Some m) None with
  | Some c => if isBoundaryChar c then [c] else []
  | None => []
  end.

(** The expression that [getMappingsForText] builds. *)
Definition lookupPattern (text : str) (caseSensitive preserveWord : bool) : RegExp :=
  mkRegExp
    (Seq (if preserveWord then WordB else Eps)
         (Seq (literal text) (if preserveWord then WordB else Eps)))
    (if caseSensitive then true else false) true.

(** The filter of [getMappingsForText]. *)
Definition entryMatches (re : RegExp) (entry : MappingEntry) : bool :=
  let '(text, _) := entry in
  match String_match text re with
  | Some _ => true
  | None => false
  end.

(** [text] occurs in [s]: letter case is compared as the flag [i] says, and
    with [\b] on both sides when [pw] is set. *)
Definition Occurs (ic pw : bool) (text s : str) : Prop :=
  exists pre mid post,
    s = pre ++ mid ++ post
    /\ Forall2 (fun c d => chr_eqb ic c d = true) text mid
    /\ (pw = true ->
        xorb (isWordAt (last (map Some pre) None)) (isWordAt (hd_error (mid ++ post))) = true
        /\ xorb (isWordAt (last (map Some (pre ++ mid)) None)) (isWordAt (hd_error post)) = true).

(** A child index as a number. *)
Definition index (i : nat) : number := Num (Z.of_nat i).

(** A text without a dot. *)
Definition dotFree (s : str) : Prop :=
  Forall (fun c => (code c =? code "."%char)%N = false) s.

(** A path leaves the tree: at some depth the index is not below the number
    of children. *)
Definition OutOfRange (n : Node) (path : list nat) : Prop :=
  exists pre i post parent,
    path = pre ++ i :: post
    /\ nodeAt n pre = Some parent
    /\ length (childNodes parent) <= i.

(** Induction on a tree, with the hypothesis for every child. *)
Fixpoint Node_ind_children (P : Node -> Prop)
         (HText : forall d, P (Text d))
         (HComment : forall d, P (Comment d))
         (HElement : forall cs, Forall P cs -> P (Element cs))
         (n : Node) : P n :=
  match n with
  | Text d => HText d
  | Comment d => HComment d
  | Element cs =>
      HElement cs
        ((fix all (l : list Node) : Forall P l :=
            match l with
            | [] => Forall_nil P
            | c :: l' =>
                Forall_cons c (Node_ind_children P HText HComment HElement c) (all l')
            end) cs)
  end.

(** [p] leads from [n] to a node of the text type through nodes that are
    not of the text type. *)
Inductive TextLeaf (marker : N) : Node -> list nat -> Prop :=
| leaf_child n i c :
    nth_error (childNodes n) i = Some c ->
    nodeType c = marker ->
    TextLeaf marker n [i]
| leaf_below n i c p :
    nth_error (childNodes n) i = Some c ->
    nodeType c <> marker ->
    TextLeaf marker c p ->
    TextLeaf marker n (i :: p).

(** Document order of locations: an ancestor comes before its descendants,
    an earlier sibling and what is below it before a later sibling. *)
Fixpoint docBefore (p q : list nat) : Prop :=
  match p, q with
  | [], _ :: _ => True
  | i :: p', j :: q' => i < j \/ (i = j /\ docBefore p' q')
  | _, [] => False
  end.

(** The locations of the text leaves in depth-first pre-order, as the
    specification describes the traversal. *)
Fixpoint textLeafPaths (marker : N) (n : Node) : list (list nat) :=
  match n with
  | Element cs =>
      flatMap (fun c i =>
                 if (nodeType c =? marker)%N then [[i]]
                 else map (cons i) (textLeafPaths marker c))
              cs 0
  | Text _ | Comment _ => []
  end.

(** The entry of the node at [p] below [n], when [n] is at [base]. *)
Definition entryAt (n : Node) (base p : list nat) : MappingEntry :=
  (match nodeAt n p with Some m => textContent m | None => [] end,
   encode (base ++ p)).

(** [s.startsWith(t)] and [s.includes(t)], to say that a text occurs in
    another, letter for letter. *)
Fixpoint startsWith (s t : str) : bool :=
  match t, s with
  | [], _ => true
  | c :: t', d :: s' => (code c =? code d)%N && startsWith s' t'
  | _ :: _, [] => false
  end.

Fixpoint includes (s t : str) : bool :=
  startsWith s t
  || match s with
     | [] => false
     | _ :: s' => includes s' t
     end.

(** The tree [<div><p>text</p></div>] of the test suite. *)
Definition paragraph (text : string) : Node :=
  Element [Element [Text (lit text)]].

(** No option given to the constructor; the options of a [replaceText]
    call of the test suite. *)
Definition noOptions : Options := mkOptions None None.

Definition replaceOptions (pw : option bool) (k : option Z) : ReplaceOptions :=
  mkReplaceOptions None pw k None.

(** [replaceText(text, [createTextNode(by)], options).remap()] *)
Definition replaceAndRemap (text by_ : string) (options : ReplaceOptions) : M unit :=
  _ <- replaceText (lit text) (NodeArray [Text (lit by_)]) options ;;
  remap None.

(** The matches [ms] and the pieces [cs] that follow them, put back in
    order: [m0 c1 m1 c2 ...]. *)
Fixpoint weave (ms cs : list str) : str :=
  match ms, cs with
  | m :: ms', c :: cs' => m ++ c ++ weave ms' cs'
  | _, _ => []
  end.

(** What [joinArrayWith] adds after the first element. *)
Fixpoint joinTail (onJoin : nat -> str) (i : nat) (arr : list str) : str :=
  match arr with
  | [] => []
  | cur :: arr' => onJoin i ++ cur ++ joinTail onJoin (S i) arr'
  end.

(** What the callbacks of [replaceText] put between two pieces, for the
    match [m]. *)
Definition rebuilt (text : str) (m : option str) : str :=
  let '(preChar, postChar) := getSurroundingChars m in
  preChar ++ text ++ postChar.

(** The text that an escaped pattern text stands for: every backslash is
    dropped and the character after it is kept. *)
Fixpoint unescape (p : str) : str :=
  match p with
  | [] => []
  | c :: p' =>
      if (code c =? code backslash)%N then
        match p' with
        | d :: p'' => d :: unescape p''
        | [] => []
        end
      else c :: unescape p'
  end.

(** The number of characters of a text that [escapeRegExp] escapes. *)
Definition countSyntaxCharacters (s : str) : nat :=
  length (filter isSyntaxCharacter s).

(** * Properties *)

(** ** The matcher *)

Lemma code_inj (a b : ascii) : (code a =? code b)%N = true <-> a = b.
Proof.
  unfold code. rewrite N.eqb_eq. split; intro H.
  - rewrite <- (ascii_N_embedding a), <- (ascii_N_embedding b). now rewrite H.
  - now subst.
Qed.

Lemma str_eqb_eq (a b : str) : str_eqb a b = true <-> a = b.
Proof.
  unfold str_eqb. destruct (list_eq_dec ascii_dec a b); split; congruence.
Qed.

Lemma last_cons_default {A} (l : list A) : forall a d d',
  last (a :: l) d = last (a :: l) d'.
Proof.
  induction l as [|b l IH]; intros a d d'; [reflexivity|].
  change (last (b :: l) d = last (b :: l) d'). apply IH.
Qed.

Lemma last_app_default {A} (l1 l2 : list A) : forall d,
  last (l1 ++ l2) d = last l2 (last l1 d).
Proof.
  induction l1 as [|a l1 IH]; intros d; [reflexivity|].
  destruct l1 as [|b l1].
  - destruct l2 as [|c l2]; [reflexivity|].
    change (last (c :: l2) d = last (c :: l2) a). apply last_cons_default.
  - change (last ((b :: l1) ++ l2) d = last l2 (last (b :: l1) d)). apply IH.
Qed.

Lemma last_map_Some_app (w1 w2 : str) (prev : option ascii) :
  last (map Some (w1 ++ w2)) prev = last (map Some w2) (last (map Some w1) prev).
Proof.
  rewrite map_app. apply last_app_default.
Qed.

(** What is matched is a prefix of the input, and the rest is what is left. *)
Lemma matchesAt_prefix ic r : forall prev rest w x,
  In (w, x) (matchesAt ic r prev rest) -> rest = w ++ x.
Proof.
  induction r; intros prev rest w x H; simpl in H.
  - destruct H as [H|[]]. now inversion H.
  - destruct rest as [|d rest']; [contradiction|].
    destruct (chr_eqb ic c d); [|contradiction].
    destruct H as [H|[]]. now inversion H.
  - destruct rest as [|d rest']; [contradiction|].
    destruct (class_matches ic items d); [|contradiction].
    destruct H as [H|[]]. now inversion H.
  - destruct prev; [contradiction|]. destruct H as [H|[]]. now inversion H.
  - destruct rest; [|contradiction]. destruct H as [H|[]]. now inversion H.
  - destruct (xorb _ _); [|contradiction]. destruct H as [H|[]]. now inversion H.
  - apply in_flat_map in H. destruct H as [[w1 x1] [H1 H2]].
    apply in_map_iff in H2. destruct H2 as [[w2 x2] [E H2]].
    inversion E; subst. apply IHr1 in H1. apply IHr2 in H2. subst.
    now rewrite app_assoc.
  - apply in_app_or in H. destruct H; eauto.
Qed.

Lemma matchesAt_Seq ic r1 r2 prev rest w x :
  In (w, x) (matchesAt ic (Seq r1 r2) prev rest) <->
  exists w1 x1 w2,
    In (w1, x1) (matchesAt ic r1 prev rest)
    /\ In (w2, x) (matchesAt ic r2 (last (map Some w1) prev) x1)
    /\ w = w1 ++ w2.
Proof.
  simpl. rewrite in_flat_map. split.
  - intros [[w1 x1] [H1 H2]]. apply in_map_iff in H2.
    destruct H2 as [[w2 x2] [E H2]]. inversion E; subst. eauto 6.
  - intros (w1 & x1 & w2 & H1 & H2 & ->). exists (w1, x1). split; [assumption|].
    apply in_map_iff. exists (w2, x). auto.
Qed.

Lemma matchAt_Some re prev rest w :
  matchAt re prev rest = Some w ->
  exists x, In (w, x) (matchesAt (ignoreCase re) (source re) prev rest).
Proof.
  unfold matchAt. destruct (matchesAt _ _ _ _) as [|[w' x] l]; [discriminate|].
  intros H. inversion H; subst. exists x. now left.
Qed.

Lemma matchAt_None re prev rest :
  matchAt re prev rest = None <->
  forall w x, ~ In (w, x) (matchesAt (ignoreCase re) (source re) prev rest).
Proof.
  unfold matchAt. destruct (matchesAt _ _ _ _) as [|[w' x'] l]; split.
  - intros _ w x [].
  - reflexivity.
  - discriminate.
  - intros H. exfalso. apply (H w' x'). now left.
Qed.

Lemma matchAt_prefix re prev rest w :
  matchAt re prev rest = Some w -> exists x, rest = w ++ x.
Proof.
  intros H. apply matchAt_Some in H. destruct H as [x H].
  exists x. eapply matchesAt_prefix; eauto.
Qed.

Lemma matchesAt_literal ic s : forall prev rest w x,
  In (w, x) (matchesAt ic (literal s) prev rest) <->
  rest = w ++ x /\ Forall2 (fun c d => chr_eqb ic c d = true) s w.
Proof.
  induction s as [|c s IH]; intros prev rest w x.
  - simpl. split.
    + intros [H|[]]. inversion H; subst. split; [reflexivity|constructor].
    + intros [-> H]. inversion H; subst. now left.
  - change (literal (c :: s)) with (Seq (Chr c) (literal s)).
    rewrite matchesAt_Seq. split.
    + intros (w1 & x1 & w2 & H1 & H2 & ->). simpl in H1.
      destruct rest as [|d rest']; [contradiction|].
      destruct (chr_eqb ic c d) eqn:E; [|contradiction].
      destruct H1 as [H1|[]]. inversion H1; subst.
      apply IH in H2. destruct H2 as [-> H2]. split; [reflexivity|].
      constructor; assumption.
    + intros [-> H]. inversion H as [|c' d s' w' Hcd Hrest]; subst.
      exists [d], (w' ++ x), w'. split; [|split; [|reflexivity]].
      * simpl. rewrite Hcd. now left.
      * apply IH. split; [reflexivity|assumption].
Qed.

Lemma Forall2_chr_eqb_false (s w : str) :
  Forall2 (fun c d => chr_eqb false c d = true) s w <-> s = w.
Proof.
  split.
  - induction 1 as [|c d s w H _ IH]; [reflexivity|].
    apply code_inj in H. now subst.
  - intros <-. induction s; constructor; [|assumption].
    now apply code_inj.
Qed.

(** ** Escaping *)

Lemma reRegExpChar_class (c : ascii) :
  class_matches false (map CChar (lit "\^$.*+?()[]{}|")) c = isSyntaxCharacter c.
Proof.
  unfold class_matches, isSyntaxCharacter, syntaxCharacters.
  induction (lit "\^$.*+?()[]{}|") as [|d l IH]; [reflexivity|].
  simpl. now rewrite IH.
Qed.

Lemma matchAt_reRegExpChar g prev rest :
  matchAt (mkRegExp (source reRegExpChar) false g) prev rest =
  match rest with
  | c :: _ => if isSyntaxCharacter c then Some [c] else None
  | [] => None
  end.
Proof.
  unfold matchAt. cbn [source ignoreCase reRegExpChar matchesAt].
  destruct rest as [|c rest']; [reflexivity|].
  rewrite reRegExpChar_class. now destruct (isSyntaxCharacter c).
Qed.

Lemma test_reHasRegExpChar (s : str) :
  RegExp_test reHasRegExpChar s = existsb isSyntaxCharacter s.
Proof.
  unfold RegExp_test, reHasRegExpChar. generalize (@None ascii).
  induction s as [|c s IH]; intros prev.
  - cbn [execAll]. now rewrite matchAt_reRegExpChar.
  - cbn [execAll existsb]. rewrite matchAt_reRegExpChar.
    destruct (isSyntaxCharacter c); [reflexivity|]. apply IH.
Qed.

Lemma replace_reRegExpChar (s : str) :
  String_replace s reRegExpChar (fun w => backslash :: w) = flat_map escapeChar s.
Proof.
  unfold String_replace. generalize (@None ascii).
  induction s as [|c s IH]; intros prev.
  - cbn [replaceLoop]. change reRegExpChar with (mkRegExp (source reRegExpChar) false true).
    now rewrite matchAt_reRegExpChar.
  - cbn [replaceLoop flat_map].
    change reRegExpChar with (mkRegExp (source reRegExpChar) false true) at 1.
    rewrite matchAt_reRegExpChar. unfold escapeChar at 1.
    destruct (isSyntaxCharacter c); cbn [length app]; now rewrite IH.
Qed.

Lemma flat_map_escapeChar_plain (s : str) :
  existsb isSyntaxCharacter s = false -> flat_map escapeChar s = s.
Proof.
  induction s as [|c s IH]; [reflexivity|]. simpl.
  intros H. apply orb_false_iff in H. destruct H as [Hc Hs].
  unfold escapeChar at 1. rewrite Hc. simpl. now rewrite IH.
Qed.

(** [escapeRegExp] puts a backslash before every syntax character. *)
Lemma escapeRegExp_spec (text : str) :
  escapeRegExp text = flat_map escapeChar text.
Proof.
  unfold escapeRegExp. rewrite test_reHasRegExpChar, replace_reRegExpChar.
  destruct text as [|c text]; [reflexivity|].
  replace (str_eqb (c :: text) []) with false
    by (symmetry; unfold str_eqb; now destruct (list_eq_dec _ _ _)).
  cbn [negb andb].
  destruct (existsb isSyntaxCharacter (c :: text)) eqn:E; [reflexivity|].
  now rewrite flat_map_escapeChar_plain.
Qed.

(** The escaped text is always a well-formed pattern, and it denotes the
    text itself. *)
Lemma parseAtoms_escapeRegExp (text : str) :
  parseAtoms (escapeRegExp text) = Some (literal text).
Proof.
  rewrite escapeRegExp_spec.
  induction text as [|c text IH]; [reflexivity|].
  cbn [flat_map]. unfold escapeChar at 1.
  destruct (isSyntaxCharacter c) eqn:E.
  - cbn [app parseAtoms]. rewrite N.eqb_refl, E, IH. reflexivity.
  - cbn [app parseAtoms]. rewrite E.
    destruct (code c =? code backslash)%N eqn:Eb.
    + apply code_inj in Eb. subst c. discriminate E.
    + rewrite IH. reflexivity.
Qed.

(** ** Searching a text *)

Lemma last_map_Some_None (pre : str) :
  last (map Some pre) None = None <-> pre = [].
Proof.
  split; [|now intros ->].
  destruct pre as [|a pre]; [reflexivity|]. intros H. exfalso.
  revert a H. induction pre as [|b pre IH]; intros a H; [discriminate|].
  apply (IH b). exact H.
Qed.

(** The search finds nothing exactly when the expression matches at no
    position of the text. *)
Lemma execAll_nil re : forall rest prev,
  execAll re prev rest 0 = [] <->
  forall pre post, rest = pre ++ post ->
                   matchAt re (last (map Some pre) prev) post = None.
Proof.
  induction rest as [|c rest IH]; intros prev; cbn [execAll].
  - split.
    + intros H pre post E. symmetry in E. apply app_eq_nil in E.
      destruct E; subst. simpl. now destruct (matchAt re prev []).
    + intros H. pose proof (H [] [] eq_refl) as E. simpl in E. now rewrite E.
  - destruct (matchAt re prev (c :: rest)) eqn:E.
    + split; [discriminate|]. intros H.
      specialize (H [] (c :: rest) eq_refl). simpl in H. congruence.
    + rewrite IH. split.
      * intros H pre post Hs. destruct pre as [|a pre].
        -- simpl in Hs. subst post. exact E.
        -- inversion Hs; subst. specialize (H pre post eq_refl).
           change (a :: pre) with ([a] ++ pre). now rewrite last_map_Some_app.
      * intros H pre post ->. specialize (H (c :: pre) post eq_refl).
        change (c :: pre) with ([c] ++ pre) in H.
        now rewrite last_map_Some_app in H.
Qed.

(** Every match found by the search is the matcher's answer at a position. *)
Lemma execAll_In re : forall rest prev skip m,
  In m (execAll re prev rest skip) ->
  exists pre post, rest = pre ++ post
                   /\ matchAt re (last (map Some pre) prev) post = Some m.
Proof.
  assert (step : forall c rest prev m,
     (exists pre post, rest = pre ++ post
                       /\ matchAt re (last (map Some pre) (Some c)) post = Some m) ->
     exists pre post, c :: rest = pre ++ post
                      /\ matchAt re (last (map Some pre) prev) post = Some m).
  { intros c rest prev m (pre & post & -> & H). exists (c :: pre), post.
    split; [reflexivity|]. change (c :: pre) with ([c] ++ pre).
    now rewrite last_map_Some_app. }
  induction rest as [|c rest IH]; intros prev skip m H.
  - destruct skip; cbn [execAll] in H; [|contradiction].
    destruct (matchAt re prev []) eqn:E; [|contradiction].
    destruct H as [<-|[]]. exists [], []. auto.
  - destruct skip as [|skip]; cbn [execAll] in H.
    + destruct (matchAt re prev (c :: rest)) eqn:E.
      * destruct H as [<-|H].
        -- exists [], (c :: rest). auto.
        -- apply step. eapply IH; eauto.
      * apply step. eapply IH; eauto.
    + apply step. eapply IH; eauto.
Qed.

Lemma createRegExpSearch_ok (search : str) (preserveWord : bool) :
  createRegExpSearch search preserveWord = Some (searchPattern search preserveWord).
Proof.
  unfold createRegExpSearch. now rewrite parseAtoms_escapeRegExp.
Qed.

Lemma matchesAt_search search pw pre rest w x :
  In (w, x) (matchesAt false (source (searchPattern search pw))
                       (last (map Some pre) None) rest) <->
  exists lead trail,
    w = lead ++ search ++ trail /\ rest = w ++ x
    /\ leadOK pw pre lead /\ trailOK pw trail x.
Proof.
  cbn [source searchPattern]. rewrite matchesAt_Seq. split.
  - intros (w1 & x1 & w23 & H1 & H23 & ->).
    apply matchesAt_Seq in H23. destruct H23 as (w2 & x2 & w3 & H2 & H3 & ->).
    apply matchesAt_literal in H2. destruct H2 as [-> H2].
    apply Forall2_chr_eqb_false in H2. subst w2.
    pose proof (matchesAt_prefix _ _ _ _ _ _ H1) as E1.
    pose proof (matchesAt_prefix _ _ _ _ _ _ H3) as E3.
    exists w1, w3. split; [reflexivity|]. split.
    { subst. now rewrite <- !app_assoc. }
    unfold leadOK, trailOK. destruct pw; cbn [matchesAt] in H1, H3.
    + split.
      * apply in_app_or in H1. destruct H1 as [H1|H1].
        -- destruct (last (map Some pre) None) eqn:El; [contradiction|].
           destruct H1 as [H1|[]]. inversion H1; subst.
           left. split; [reflexivity|]. now apply last_map_Some_None.
        -- destruct rest as [|d rest']; [contradiction|].
           destruct (class_matches false wordBoundaryChars d) eqn:Ec; [|contradiction].
           destruct H1 as [H1|[]]. inversion H1; subst. right. eauto.
      * apply in_app_or in H3. destruct H3 as [H3|H3].
        -- destruct x2; [|contradiction]. destruct H3 as [H3|[]].
           inversion H3; subst. now left.
        -- destruct x2 as [|d x2']; [contradiction|].
           destruct (class_matches false wordBoundaryChars d) eqn:Ec; [|contradiction].
           destruct H3 as [H3|[]]. inversion H3; subst. right. eauto.
    + destruct H1 as [H1|[]]. destruct H3 as [H3|[]].
      inversion H1; inversion H3; subst. auto.
  - intros (lead & trail & -> & -> & Hl & Ht).
    exists lead, ((search ++ trail) ++ x), (search ++ trail).
    split; [|split; [|reflexivity]].
    + unfold leadOK in Hl. destruct pw.
      * cbn [matchesAt]. apply in_or_app. destruct Hl as [[-> ->]|(c & -> & Hc)].
        -- left. simpl. now left.
        -- right. cbn [app]. unfold isBoundaryChar in Hc. rewrite Hc. now left.
      * subst lead. simpl. now left.
    + apply matchesAt_Seq. exists search, (trail ++ x), trail.
      split; [|split; [|reflexivity]].
      * apply matchesAt_literal. split; [now rewrite app_assoc|].
        now apply Forall2_chr_eqb_false.
      * unfold trailOK in Ht. destruct pw.
        -- cbn [matchesAt]. apply in_or_app. destruct Ht as [[-> ->]|(c & -> & Hc)].
           ++ left. simpl. now left.
           ++ right. cbn [app]. unfold isBoundaryChar in Hc. rewrite Hc. now left.
        -- subst trail. simpl. now left.
Qed.

Lemma String_match_None search pw s :
  String_match s (searchPattern search pw) = None <-> ~ Flanked pw search s.
Proof.
  unfold String_match.
  assert (E : execAll (searchPattern search pw) None s 0 = [] <->
              ~ Flanked pw search s).
  { rewrite execAll_nil. split.
    - intros H (pre & lead & trail & post & Hs & Hl & Ht).
      specialize (H pre _ Hs). rewrite matchAt_None in H.
      apply (H (lead ++ search ++ trail) post).
      apply matchesAt_search. exists lead, trail. auto.
    - intros H pre post Hs. apply matchAt_None. intros w x Hin.
      apply matchesAt_search in Hin.
      destruct Hin as (lead & trail & -> & -> & Hl & Ht).
      apply H. exists pre, lead, trail, x. auto. }
  destruct (execAll _ _ _ _) eqn:Ex.
  - split; [intros _; now apply E|reflexivity].
  - split; [discriminate|]. intros H. apply E in H. discriminate.
Qed.

Lemma String_match_In search pw s ms m :
  String_match s (searchPattern search pw) = Some ms -> In m ms ->
  exists pre lead trail post,
    s = pre ++ m ++ post /\ m = lead ++ search ++ trail
    /\ leadOK pw pre lead /\ trailOK pw trail post.
Proof.
  unfold String_match. intros H Hin.
  assert (Hin' : In m (execAll (searchPattern search pw) None s 0)).
  { destruct (execAll _ _ _ _); [discriminate|]. now inversion H; subst. }
  apply execAll_In in Hin'. destruct Hin' as (pre & rest & -> & Hm).
  apply matchAt_Some in Hm. destruct Hm as [x Hm].
  apply matchesAt_search in Hm.
  destruct Hm as (lead & trail & -> & -> & Hl & Ht).
  exists pre, lead, trail, x. auto.
Qed.

Lemma RegExp_test_false re s :
  RegExp_test re s = false <->
  forall pre post, s = pre ++ post ->
                   matchAt re (last (map Some pre) None) post = None.
Proof.
  rewrite <- execAll_nil. unfold RegExp_test.
  destruct (execAll re None s 0); split; congruence.
Qed.

(** ** The characters around a match *)

Lemma test_wordBoundaryStartsWith (s : str) :
  RegExp_test wordBoundaryStartsWith s =
  match s with c :: _ => isBoundaryChar c | [] => false end.
Proof.
  assert (F : forall c s', isBoundaryChar c = false \/ s = [] ->
                           s = [] \/ s = c :: s' ->
                           RegExp_test wordBoundaryStartsWith s = false).
  { intros c s' Hc Hs. apply RegExp_test_false. intros pre post E.
    apply matchAt_None. intros w x Hin.
    cbn [source ignoreCase wordBoundaryStartsWith] in Hin.
    apply matchesAt_Seq in Hin. destruct Hin as (w1 & x1 & w2 & H1 & H2 & _).
    cbn [matchesAt] in H1.
    destruct (last (map Some pre) None) eqn:El; [contradiction|].
    apply last_map_Some_None in El. subst pre. destruct H1 as [H1|[]].
    inversion H1; subst w1 x1. cbn [matchesAt] in H2. simpl in E. subst post.
    destruct Hs as [-> | ->]; [contradiction|].
    destruct Hc as [Hc|Hc]; [|discriminate]. unfold isBoundaryChar in Hc.
    rewrite Hc in H2. contradiction. }
  destruct s as [|c s'].
  - apply (F "a"%char []); auto.
  - destruct (isBoundaryChar c) eqn:Hc.
    + destruct (RegExp_test wordBoundaryStartsWith (c :: s')) eqn:T; [reflexivity|].
      rewrite RegExp_test_false in T. specialize (T [] (c :: s') eq_refl).
      unfold matchAt in T. cbn [source ignoreCase wordBoundaryStartsWith] in T.
      simpl last in T. cbn [matchesAt flat_map map app] in T.
      unfold isBoundaryChar in Hc. rewrite Hc in T. discriminate T.
    + apply (F c s'); auto.
Qed.

Lemma test_wordBoundaryEndsWith (s : str) :
  RegExp_test wordBoundaryEndsWith s =
  match last (map Some s) None with Some c => isBoundaryChar c | None => false end.
Proof.
  assert (W : forall pre post w x,
             In (w, x) (matchesAt false (source wordBoundaryEndsWith)
                                  (last (map Some pre) None) post) <->
             exists c, post = [c] /\ w = [c] /\ x = [] /\ isBoundaryChar c = true).
  { intros pre post w x. cbn [source wordBoundaryEndsWith].
    rewrite matchesAt_Seq. cbn [matchesAt]. split.
    - intros (w1 & x1 & w2 & H1 & H2 & ->).
      destruct post as [|d post']; [contradiction|].
      destruct (class_matches false wordBoundaryChars d) eqn:Hd; [|contradiction].
      destruct H1 as [H1|[]]. inversion H1; subst.
      destruct x1; [|contradiction]. destruct H2 as [H2|[]].
      inversion H2; subst. exists d. auto.
    - intros (c & -> & -> & -> & Hc). exists [c], [], [].
      unfold isBoundaryChar in Hc. rewrite Hc. simpl. auto. }
  destruct (last (map Some s) None) as [c|] eqn:El.
  - assert (Es : exists pre, s = pre ++ [c]).
    { destruct s as [|a s] using rev_ind; [discriminate|].
      rewrite last_map_Some_app in El. simpl in El. inversion El. eauto. }
    destruct Es as [pre ->]. destruct (isBoundaryChar c) eqn:Hc.
    + destruct (RegExp_test wordBoundaryEndsWith (pre ++ [c])) eqn:T; [reflexivity|].
      rewrite RegExp_test_false in T. specialize (T pre [c] eq_refl).
      rewrite matchAt_None in T. exfalso. apply (T [c] []).
      apply W. exists c. auto.
    + apply RegExp_test_false. intros pre' post E. apply matchAt_None.
      intros w x Hin. apply W in Hin. destruct Hin as (d & -> & _ & _ & Hd).
      apply app_inj_tail in E. destruct E as [_ <-]. congruence.
  - apply last_map_Some_None in El. subst s.
    apply RegExp_test_false. intros pre post E. apply matchAt_None.
    intros w x Hin. apply W in Hin. destruct Hin as (d & -> & _).
    destruct pre; discriminate E.
Qed.

Lemma charAt_last (m : str) :
  charAt m (length m - 1) =
  match last (map Some m) None with Some c => [c] | None => [] end.
Proof.
  destruct m as [|a m] using rev_ind; [reflexivity|].
  rewrite last_map_Some_app. simpl last. unfold charAt.
  rewrite length_app. simpl length.
  replace (length m + 1 - 1) with (length m) by lia.
  now rewrite nth_error_app2, Nat.sub_diag by lia.
Qed.

Lemma getSurroundingChars_Some (m : str) :
  getSurroundingChars (Some m) = (firstBoundary m, lastBoundary m).
Proof.
  unfold getSurroundingChars, firstBoundary, lastBoundary.
  rewrite test_wordBoundaryStartsWith, test_wordBoundaryEndsWith, charAt_last.
  f_equal.
  - destruct m; reflexivity.
  - destruct (last (map Some m) None); reflexivity.
Qed.

Lemma getSurroundingChars_None : getSurroundingChars None = ([], []).
Proof. reflexivity. Qed.

(** A boundary character that the expression took before or after the
    search text is what [getSurroundingChars] reads back. *)
Lemma firstBoundary_lead (c : ascii) (m : str) :
  isBoundaryChar c = true -> firstBoundary (c :: m) = [c].
Proof. intros H. unfold firstBoundary. now rewrite H. Qed.

Lemma lastBoundary_trail (c : ascii) (m : str) :
  isBoundaryChar c = true -> lastBoundary (m ++ [c]) = [c].
Proof.
  intros H. unfold lastBoundary. rewrite last_map_Some_app. simpl.
  now rewrite H.
Qed.

(** ** Lookups in the mapping *)

(** The lookup never throws: the escaped text is a well-formed pattern. *)
Lemma getMappingsForText_ok this text cs pw :
  getMappingsForText this text cs pw =
  inr (filter (entryMatches (lookupPattern text (orDefault true cs) (orDefault false pw)))
              (mapping this)).
Proof.
  unfold getMappingsForText. rewrite parseAtoms_escapeRegExp. reflexivity.
Qed.

Lemma orDefault_Some {A} (d : A) (o : option A) :
  orDefault d (Some (orDefault d o)) = orDefault d o.
Proof. reflexivity. Qed.

Lemma matchesAt_lookup text cs pw pre rest w x :
  In (w, x) (matchesAt (ignoreCase (lookupPattern text cs pw))
                       (source (lookupPattern text cs pw))
                       (last (map Some pre) None) rest) <->
  rest = w ++ x
  /\ Forall2 (fun c d => chr_eqb (ignoreCase (lookupPattern text cs pw)) c d = true) text w
  /\ (pw = true ->
      xorb (isWordAt (last (map Some pre) None)) (isWordAt (hd_error rest)) = true
      /\ xorb (isWordAt (last (map Some (pre ++ w)) None)) (isWordAt (hd_error x)) = true).
Proof.
  cbn [source ignoreCase lookupPattern]. rewrite matchesAt_Seq. split.
  - intros (w1 & x1 & w23 & H1 & H23 & ->).
    apply matchesAt_Seq in H23. destruct H23 as (w2 & x2 & w3 & H2 & H3 & ->).
    apply matchesAt_literal in H2. destruct H2 as [-> H2].
    destruct pw; cbn [matchesAt] in H1, H3.
    + destruct (xorb _ _) eqn:X1 in H1; [|contradiction].
      destruct H1 as [H1|[]]. inversion H1; subst. clear H1.
      destruct (xorb _ _) eqn:X3 in H3; [|contradiction].
      destruct H3 as [H3|[]]. inversion H3; subst. clear H3.
      simpl app. rewrite List.app_nil_r. repeat split; try assumption.
      rewrite last_map_Some_app. exact X3.
    + destruct H1 as [H1|[]]. destruct H3 as [H3|[]].
      inversion H1; inversion H3; subst. simpl app. rewrite List.app_nil_r.
      repeat split; try assumption; discriminate.
  - intros (-> & H2 & Hb). exists [], (w ++ x), w.
    split; [|split; [|reflexivity]].
    + destruct pw; cbn [matchesAt].
      * destruct (Hb eq_refl) as [X1 _]. rewrite X1. now left.
      * now left.
    + apply matchesAt_Seq. exists w, x, []. rewrite List.app_nil_r.
      split; [|split; [|reflexivity]].
      * apply matchesAt_literal. auto.
      * destruct pw; cbn [matchesAt].
        -- destruct (Hb eq_refl) as [_ X3]. rewrite last_map_Some_app in X3.
           simpl last at 2. rewrite X3. now left.
        -- now left.
Qed.

Lemma entryMatches_Occurs text cs pw (entry : MappingEntry) :
  entryMatches (lookupPattern text cs pw) entry = true <->
  Occurs (if cs then true else false) pw text (fst entry).
Proof.
  destruct entry as [s a]. unfold entryMatches, String_match. simpl fst.
  assert (E : execAll (lookupPattern text cs pw) None s 0 = [] <->
              ~ Occurs (if cs then true else false) pw text s).
  { rewrite execAll_nil. split.
    - intros H (pre & mid & post & Hs & Hf & Hb).
      specialize (H pre _ Hs). rewrite matchAt_None in H.
      apply (H mid post). apply matchesAt_lookup. auto.
    - intros H pre post Hs. apply matchAt_None. intros w x Hin.
      apply matchesAt_lookup in Hin. destruct Hin as (-> & Hf & Hb).
      apply H. exists pre, w, x. auto. }
  destruct (execAll _ _ _ _) as [|m ms] eqn:Ex.
  - split; [discriminate|]. intros H. exfalso. now apply E.
  - split; [|reflexivity]. intros _.
    assert (Hin : In m (execAll (lookupPattern text cs pw) None s 0))
      by (rewrite Ex; now left).
    apply execAll_In in Hin. destruct Hin as (pre & rest & -> & Hm).
    apply matchAt_Some in Hm. destruct Hm as [x Hm].
    apply matchesAt_lookup in Hm. destruct Hm as (-> & Hf & Hb).
    exists pre, m, x. auto.
Qed.

Lemma getAddressForText_ok this text cs pw :
  getAddressForText this text cs pw =
  inr (match filter (entryMatches (lookupPattern text (orDefault true cs) (orDefault false pw)))
                    (mapping this) with
       | entry :: _ => Some (snd entry)
       | [] => None
       end).
Proof.
  unfold getAddressForText. rewrite getMappingsForText_ok. cbn [orDefault].
  now destruct (filter _ _).
Qed.

Lemma getAddressesForText_ok this text cs pw :
  getAddressesForText this text cs pw =
  inr (Some (map snd
               (filter (entryMatches (lookupPattern text (orDefault true cs) (orDefault false pw)))
                       (mapping this)))).
Proof.
  unfold getAddressesForText. rewrite getMappingsForText_ok. reflexivity.
Qed.

Lemma getTextNode_ok this text cs pw :
  exists node, getTextNode this text cs pw = inr node.
Proof.
  unfold getTextNode. rewrite getAddressForText_ok.
  destruct (filter _ _) as [|entry l]; [eauto|].
  destruct (truthy (snd entry)); eauto.
Qed.

Lemma targetNode_ok this text options :
  exists node, targetNode this text options = inr node.
Proof.
  unfold targetNode. destruct (at_ options) as [[|c a]|]; eauto using getTextNode_ok.
Qed.

(** The two outcomes of [replaceText]. *)
Lemma replaceText_run this text nodes options :
  exists node,
    targetNode this text options = inr node
    /\ replaceText text nodes options this =
       let pattern := searchPattern text (orDefault true (preserveWord options)) in
       match node with
       | Some (loc, n) =>
           match String_match (textContent n) pattern with
           | Some textMatch =>
               let new :=
                 replacementNodes this text nodes
                   (orDefault 0%Z (replacementIndex options)) textMatch
                   (String_split (textContent n) pattern) in
               (inr tt,
                mkAracari (match root this with
                           | Some r => Some (replaceWith r loc new)
                           | None => None
                           end)
                          (mapping this) (config this))
           | None => (inl (Error (notFoundMessage text)), this)
           end
       | None => (inl (Error (notFoundMessage text)), this)
       end.
Proof.
  destruct (targetNode_ok this text options) as [node E]. exists node.
  split; [assumption|].
  unfold replaceText, bind, read, ret, throw, modify.
  rewrite E, createRegExpSearch_ok.
  destruct node as [[loc n]|]; [|reflexivity].
  destruct (String_match _ _); reflexivity.
Qed.

(** ** Addresses *)

Lemma string_of_uint_digits (d : Decimal.uint) :
  Forall (fun c => isDigit c = true) (lit (NilEmpty.string_of_uint d)).
Proof.
  induction d; cbn [lit NilEmpty.string_of_uint list_ascii_of_string];
    constructor; (reflexivity || assumption).
Qed.

Lemma to_uint_nonnil (n : nat) : Nat.to_uint n <> Decimal.Nil.
Proof.
  rewrite <- (Unsigned.of_to n) at 1. rewrite Unsigned.to_of.
  apply unorm_nonnil.
Qed.

Lemma Number_toString_digits (n : nat) :
  Forall (fun c => isDigit c = true) (Number_toString n).
Proof. apply string_of_uint_digits. Qed.

Lemma Number_toString_nonempty (n : nat) : Number_toString n <> [].
Proof.
  unfold Number_toString. pose proof (to_uint_nonnil n) as H.
  destruct (Nat.to_uint n); try contradiction; discriminate.
Qed.

Lemma digitsValue_of_uint (d : Decimal.uint) : forall acc,
  fold_left (fun acc c => 10 * acc + digitValue c)
            (lit (NilEmpty.string_of_uint d)) acc
  = Nat.of_uint_acc d acc.
Proof.
  induction d; intros acc;
    cbn [lit NilEmpty.string_of_uint list_ascii_of_string fold_left Nat.of_uint_acc];
    [reflexivity|..];
    unfold lit in IHd; rewrite IHd; f_equal; rewrite Nat.tail_mul_spec;
    match goal with
    | |- context [digitValue ?c] =>
        let v := eval vm_compute in (digitValue c) in
        change (digitValue c) with v
    end; lia.
Qed.

Lemma digitsValue_toString (n : nat) : digitsValue (Number_toString n) = n.
Proof.
  unfold digitsValue, Number_toString. rewrite digitsValue_of_uint.
  apply Unsigned.of_to.
Qed.

Lemma takeDigits_all (s : str) :
  Forall (fun c => isDigit c = true) s -> takeDigits s = s.
Proof.
  induction 1 as [|c s H _ IH]; [reflexivity|]. simpl. now rewrite H, IH.
Qed.

Lemma isDigit_cases (c : ascii) :
  isDigit c = true ->
  isWhiteSpace c = false
  /\ (code c =? code "-"%char)%N = false
  /\ (code c =? code "+"%char)%N = false
  /\ (code c =? code "."%char)%N = false.
Proof.
  unfold isDigit, isWhiteSpace. change (code "-"%char) with 45%N.
  change (code "+"%char) with 43%N. change (code "."%char) with 46%N.
  generalize (code c). intros n H. apply andb_true_iff in H.
  destruct H as [H1 H2]. apply N.leb_le in H1, H2.
  repeat split;
    repeat (apply orb_false_iff; split); try (apply andb_false_iff);
    rewrite ?N.eqb_neq, ?N.leb_gt; lia.
Qed.

(** Reading back the text of a child index gives the index. *)
Lemma parseInt_Number_toString (n : nat) : parseInt (Number_toString n) = index n.
Proof.
  pose proof (Number_toString_digits n) as Hd.
  pose proof (Number_toString_nonempty n) as Hn.
  pose proof (digitsValue_toString n) as Hv.
  unfold parseInt. destruct (Number_toString n) as [|c s]; [contradiction|].
  inversion Hd as [|c' s' Hc Hs]; subst c' s'.
  destruct (isDigit_cases c Hc) as (Hw & Hm & Hp & _).
  cbn [trimStart]. rewrite Hw, Hm, Hp.
  rewrite (takeDigits_all (c :: s) Hd). rewrite Hv. reflexivity.
Qed.

Lemma Number_toString_dotFree (n : nat) : dotFree (Number_toString n).
Proof.
  eapply Forall_impl; [|apply Number_toString_digits].
  intros c Hc. now destruct (isDigit_cases c Hc) as (_ & _ & _ & H).
Qed.

Lemma String_splitOn_nonempty sep s : String_splitOn sep s <> [].
Proof.
  destruct s as [|c s]; simpl; [discriminate|].
  destruct (_ =? _)%N; [discriminate|].
  destruct (String_splitOn sep s); discriminate.
Qed.

Lemma String_splitOn_dotFree (a : str) :
  dotFree a -> String_splitOn "."%char a = [a].
Proof.
  induction 1 as [|c a H _ IH]; [reflexivity|].
  cbn [String_splitOn]. now rewrite H, IH.
Qed.

Lemma String_splitOn_app (a s : str) :
  dotFree a ->
  String_splitOn "."%char (a ++ lit "." ++ s) = a :: String_splitOn "."%char s.
Proof.
  induction 1 as [|c a H _ IH].
  - reflexivity.
  - cbn [app String_splitOn]. rewrite H.
    cbn [app] in IH. now rewrite IH.
Qed.

Lemma String_splitOn_join (l : list str) :
  l <> [] -> Forall dotFree l ->
  String_splitOn "."%char (Array_join (lit ".") l) = l.
Proof.
  intros Hn H. induction H as [|a l Ha Hl IH]; [contradiction|].
  destruct l as [|b l].
  - simpl. now apply String_splitOn_dotFree.
  - change (Array_join (lit ".") (a :: b :: l))
      with (a ++ lit "." ++ Array_join (lit ".") (b :: l)).
    rewrite String_splitOn_app by assumption. f_equal. apply IH. discriminate.
Qed.

(** Splitting an address built from child indices and reading the segments
    gives the indices back. *)
Lemma decode_encode (i : nat) (path : list nat) :
  map parseInt (String_splitOn "."%char (encode (i :: path))) = map index (i :: path).
Proof.
  unfold encode. rewrite String_splitOn_join.
  - rewrite map_map. apply map_ext. intros n. apply parseInt_Number_toString.
  - discriminate.
  - apply Forall_map. apply Forall_forall. intros n _. apply Number_toString_dotFree.
Qed.

Lemma encode_inj (p q : list nat) : encode p = encode q -> p = q.
Proof.
  intros H.
  assert (E : forall i l, encode (i :: l) <> []).
  { intros i l. unfold encode. pose proof (Number_toString_nonempty i) as Hn.
    cbn [map Array_join]. destruct (Number_toString i); [contradiction|].
    destruct (map Number_toString l); discriminate. }
  destruct p as [|i p], q as [|j q]; [reflexivity|..].
  - symmetry in H. now apply E in H.
  - now apply E in H.
  - pose proof (decode_encode i p) as Hp. pose proof (decode_encode j q) as Hq.
    rewrite H, Hq in Hp.
    assert (Hinj : forall l l' : list nat, map index l = map index l' -> l = l').
    { induction l as [|a l IH]; intros [|b l'] Hm; try discriminate; [reflexivity|].
      inversion Hm as [[Ha Hl]]. apply Nat2Z.inj in Ha. f_equal; auto. }
    symmetry. now apply Hinj.
Qed.

(** ** Walking the tree *)

Lemma walkNodes_None (path : list number) : walkNodes None path = None.
Proof. destruct path; reflexivity. Qed.

Lemma childAt_index (loc : list nat) (n : Node) (i : nat) :
  childAt (loc, n) (index i) =
  option_map (fun c => (loc ++ [i], c)) (nth_error (childNodes n) i).
Proof.
  unfold childAt, index. cbn [fst snd].
  replace (Z.of_nat i <? 0)%Z with false by (symmetry; apply Z.ltb_ge; lia).
  rewrite Nat2Z.id. now destruct (nth_error (childNodes n) i).
Qed.

(** A child reference is a real child, one step below its parent. *)
Lemma childAt_Some (p c : NodeRef) (k : number) :
  childAt p k = Some c ->
  exists i, k = index i /\ fst c = fst p ++ [i]
            /\ nth_error (childNodes (snd p)) i = Some (snd c).
Proof.
  unfold childAt. destruct k as [|z]; [discriminate|].
  destruct (z <? 0)%Z eqn:Ez; [discriminate|]. apply Z.ltb_ge in Ez.
  destruct (nth_error _ _) eqn:En; [|discriminate].
  intros H. inversion H; subst. exists (Z.to_nat z). cbn [fst snd].
  unfold index. rewrite Z2Nat.id by assumption. auto.
Qed.


(** Following child indices one after the other. *)
Lemma walkNodes_path (path : list nat) : forall loc n,
  walkNodes (Some (loc, n)) (map index path) =
  option_map (fun m => (loc ++ path, m)) (nodeAt n path).
Proof.
  induction path as [|i path IH]; intros loc n.
  - simpl. now rewrite List.app_nil_r.
  - cbn [map walkNodes nodeAt]. rewrite childAt_index.
    destruct (nth_error (childNodes n) i) as [c|]; cbn [option_map].
    + rewrite IH. now rewrite <- app_assoc.
    + apply walkNodes_None.
Qed.

(** Whatever the numbers of the path, the result is absent or a node of
    the tree at the location returned. *)
Lemma walkNodes_sound (path : list number) : forall loc n ref,
  walkNodes (Some (loc, n)) path = Some ref ->
  exists p, fst ref = loc ++ p /\ nodeAt n p = Some (snd ref)
            /\ path = map index p.
Proof.
  induction path as [|k path IH]; intros loc n ref H.
  - inversion H; subst. exists []. cbn. now rewrite List.app_nil_r.
  - cbn [walkNodes] in H. destruct (childAt (loc, n) k) as [[loc' c]|] eqn:Ec.
    + apply childAt_Some in Ec. destruct Ec as (i & -> & El & En).
      cbn [fst snd] in El, En. subst loc'.
      apply IH in H. destruct H as (p & Ef & Ea & ->).
      exists (i :: p). rewrite Ef, <- app_assoc. cbn [app nodeAt map].
      rewrite En. auto.
    + rewrite walkNodes_None in H. discriminate.
Qed.

Lemma nodeAt_None (path : list nat) : forall n,
  nodeAt n path = None <-> OutOfRange n path.
Proof.
  induction path as [|i path IH]; intros n.
  - split; [discriminate|]. intros (pre & i & post & parent & E & _).
    destruct pre; discriminate.
  - cbn [nodeAt]. destruct (nth_error (childNodes n) i) as [c|] eqn:En.
    + rewrite IH. split.
      * intros (pre & j & post & parent & -> & Hp & Hl).
        exists (i :: pre), j, post, parent. cbn [app nodeAt]. rewrite En. auto.
      * intros (pre & j & post & parent & E & Hp & Hl).
        destruct pre as [|i' pre].
        -- cbn in E, Hp. inversion E; inversion Hp; subst.
           apply nth_error_None in Hl. congruence.
        -- cbn [app] in E. inversion E; subst. cbn [nodeAt] in Hp.
           rewrite En in Hp. exists pre, j, post, parent. auto.
    + split; [|reflexivity]. intros _. exists [], i, path, n.
      apply nth_error_None in En. auto.
Qed.

(** C8.  [getNodeByAddress] and [walkNodes] never raise: they are total
    functions whose result is absent or a node.  From the root, the walk
    along child indices returns the node reached by following them one after
    the other, and is absent exactly when some index is out of range at its
    depth; the address written for a path of indices is resolved to the same
    node; for any text given as an address, and for a number that is not an
    index, the result is absent or a node that is in the tree at the location
    returned; without a root the result is absent. *)
Theorem getNodeByAddress_total :
  forall (r : Node) (m : Mapping) (cfg : Config),
    let this := mkAracari (Some r) m cfg in
    (forall path,
        walkNodes (Some ([], r)) (map index path)
        = option_map (fun n => (path, n)) (nodeAt r path))
    /\ (forall path, nodeAt r path = None <-> OutOfRange r path)
    /\ (forall path,
           OutOfRange r path -> walkNodes (Some ([], r)) (map index path) = None)
    /\ (forall i path,
           getNodeByAddress this (encode (i :: path))
           = option_map (fun n => (i :: path, n)) (nodeAt r (i :: path)))
    /\ (forall address,
           getNodeByAddress this address = None
           \/ exists loc n, getNodeByAddress this address = Some (loc, n)
                            /\ nodeAt r loc = Some n)
    /\ (forall path,
           walkNodes (Some ([], r)) path = None
           \/ exists loc n, walkNodes (Some ([], r)) path = Some (loc, n)
                            /\ nodeAt r loc = Some n /\ path = map index loc)
    /\ (forall address, getNodeByAddress (mkAracari None m cfg) address = None).
Proof.
  intros r m cfg this.
  assert (W : forall path,
             walkNodes (Some ([], r)) path = None
             \/ exists loc n, walkNodes (Some ([], r)) path = Some (loc, n)
                              /\ nodeAt r loc = Some n /\ path = map index loc).
  { intros path. destruct (walkNodes (Some ([], r)) path) as [[loc n]|] eqn:E;
      [right|now left].
    apply walkNodes_sound in E. destruct E as (p & Ef & En & Ep).
    cbn [fst snd app] in Ef, En. subst loc. eauto. }
  repeat split.
  - intros path. now rewrite walkNodes_path.
  - apply nodeAt_None.
  - apply nodeAt_None.
  - intros path H. apply nodeAt_None in H. now rewrite walkNodes_path, H.
  - intros i path. unfold getNodeByAddress. cbn [root this option_map].
    rewrite decode_encode. now rewrite walkNodes_path.
  - intros address. unfold getNodeByAddress. cbn [root this option_map].
    destruct (W (map parseInt (String_splitOn "."%char address)))
      as [E|(loc & n & E & En & _)]; eauto.
  - exact W.
  - intros address. unfold getNodeByAddress. cbn [root option_map].
    apply walkNodes_None.
Qed.

(** ** The mapping of a tree *)

Lemma flatMap_ext {A B} (f g : A -> nat -> list B) (l : list A) : forall i,
  (forall k a, nth_error l k = Some a -> f a (i + k) = g a (i + k)) ->
  flatMap f l i = flatMap g l i.
Proof.
  induction l as [|a l IH]; intros i H; [reflexivity|].
  cbn [flatMap]. f_equal.
  - specialize (H 0 a eq_refl). now rewrite Nat.add_0_r in H.
  - apply IH. intros k b Hk. specialize (H (S k) b Hk).
    now rewrite Nat.add_succ_r in H.
Qed.

Lemma flatMap_map {A B C} (g : B -> C) (f : A -> nat -> list B) (l : list A) :
  forall i, map g (flatMap f l i) = flatMap (fun a i => map g (f a i)) l i.
Proof.
  induction l as [|a l IH]; intros i; [reflexivity|].
  cbn [flatMap]. now rewrite map_app, IH.
Qed.

Lemma flatMap_In {A B} (f : A -> nat -> list B) (l : list A) (x : B) : forall i,
  In x (flatMap f l i) <->
  exists k a, nth_error l k = Some a /\ In x (f a (i + k)).
Proof.
  induction l as [|a l IH]; intros i; cbn [flatMap].
  - split; [contradiction|]. intros (k & a & H & _). destruct k; discriminate.
  - rewrite in_app_iff, IH. split.
    + intros [H|(k & b & Hk & H)].
      * exists 0, a. rewrite Nat.add_0_r. auto.
      * exists (S k), b. rewrite Nat.add_succ_r. auto.
    + intros (k & b & Hk & H). destruct k as [|k].
      * inversion Hk; subst. rewrite Nat.add_0_r in H. now left.
      * right. exists k, b. rewrite Nat.add_succ_r in H. auto.
Qed.

Lemma StronglySorted_app_intro {A} (R : A -> A -> Prop) (l1 l2 : list A) :
  StronglySorted R l1 -> StronglySorted R l2 ->
  (forall x y, In x l1 -> In y l2 -> R x y) ->
  StronglySorted R (l1 ++ l2).
Proof.
  induction 1 as [|a l1 Hs IH Ha]; intros H2 H12; [assumption|].
  cbn [app]. constructor.
  - apply IH; [assumption|]. intros x y Hx Hy. apply H12; [now right|assumption].
  - apply Forall_app. split; [assumption|].
    apply Forall_forall. intros y Hy. apply H12; [now left|assumption].
Qed.

Lemma flatMap_sorted {A B} (R : B -> B -> Prop) (f : A -> nat -> list B)
      (l : list A) : forall i,
  (forall k a, nth_error l k = Some a -> StronglySorted R (f a (i + k))) ->
  (forall k1 k2 a1 a2 x y,
      k1 < k2 -> nth_error l k1 = Some a1 -> nth_error l k2 = Some a2 ->
      In x (f a1 (i + k1)) -> In y (f a2 (i + k2)) -> R x y) ->
  StronglySorted R (flatMap f l i).
Proof.
  induction l as [|a l IH]; intros i Hs Hc; [constructor|].
  cbn [flatMap]. apply StronglySorted_app_intro.
  - specialize (Hs 0 a eq_refl). now rewrite Nat.add_0_r in Hs.
  - apply IH.
    + intros k b Hk. specialize (Hs (S k) b Hk). now rewrite Nat.add_succ_r in Hs.
    + intros k1 k2 a1 a2 x y Hlt H1 H2 Hx Hy.
      apply (Hc (S k1) (S k2) a1 a2); try assumption; try lia;
        now rewrite Nat.add_succ_r.
  - intros x y Hx Hy. apply flatMap_In in Hy. destruct Hy as (k & b & Hk & Hy).
    apply (Hc 0 (S k) a b); try assumption; try lia; try reflexivity.
    + now rewrite Nat.add_0_r.
    + now rewrite Nat.add_succ_r in *.
Qed.

(** The mapping lists the entries of the text leaves. *)
Lemma getTextNodeMapping_paths (cfg : Config) (n : Node) : forall base,
  getTextNodeMapping cfg n base
  = map (entryAt n base) (textLeafPaths (textNodeType cfg) n).
Proof.
  induction n as [d|d|cs IH] using Node_ind_children; intros base;
    [reflexivity|reflexivity|].
  cbn [getTextNodeMapping textLeafPaths]. rewrite flatMap_map.
  apply flatMap_ext. intros k c Hk. cbn [Nat.add].
  rewrite Forall_forall in IH. specialize (IH c (nth_error_In _ _ Hk)).
  destruct (nodeType c =? textNodeType cfg)%N.
  - cbn [map]. unfold entryAt. cbn [nodeAt childNodes]. rewrite Hk. reflexivity.
  - assert (E : getTextNodeMapping cfg c (base ++ [k])
                = map (entryAt (Element cs) base)
                      (map (cons k) (textLeafPaths (textNodeType cfg) c))).
    { rewrite IH, map_map. apply map_ext. intros p. unfold entryAt.
      cbn [nodeAt childNodes]. rewrite Hk. now rewrite <- app_assoc. }
    rewrite <- E. destruct (childNodes c) eqn:Ec; [|reflexivity].
    destruct c; cbn in Ec; subst; reflexivity.
Qed.

(** They are exactly the text leaves. *)
Lemma textLeafPaths_spec (marker : N) (n : Node) : forall p,
  In p (textLeafPaths marker n) <-> TextLeaf marker n p.
Proof.
  induction n as [d|d|cs IH] using Node_ind_children; intros p.
  - split; [contradiction|]. inversion 1 as [? ? ? H0|? ? ? ? H0];
      destruct i; discriminate H0.
  - split; [contradiction|]. inversion 1 as [? ? ? H0|? ? ? ? H0];
      destruct i; discriminate H0.
  - cbn [textLeafPaths]. rewrite flatMap_In. cbn [Nat.add].
    rewrite Forall_forall in IH. split.
    + intros (k & c & Hk & Hin).
      destruct (nodeType c =? marker)%N eqn:Et.
      * destruct Hin as [<-|[]]. apply N.eqb_eq in Et.
        now apply leaf_child with c.
      * apply in_map_iff in Hin. destruct Hin as (q & <- & Hq).
        apply N.eqb_neq in Et. apply leaf_below with c; try assumption.
        apply IH; [eapply nth_error_In; eauto|assumption].
    + intros H. inversion H as [n0 i c Hk Ht E1 E2|n0 i c q Hk Ht Hq E1 E2];
        subst; cbn [childNodes] in Hk; exists i, c; (split; [assumption|]).
      * rewrite N.eqb_refl. now left.
      * apply N.eqb_neq in Ht. rewrite Ht. apply in_map.
        apply IH; [eapply nth_error_In; eauto|assumption].
Qed.

(** They come in document order. *)
Lemma textLeafPaths_sorted (marker : N) (n : Node) :
  StronglySorted docBefore (textLeafPaths marker n).
Proof.
  induction n as [d|d|cs IH] using Node_ind_children; try constructor.
  cbn [textLeafPaths]. rewrite Forall_forall in IH. apply flatMap_sorted.
  - intros k c Hk. cbn [Nat.add].
    destruct (nodeType c =? marker)%N; [repeat constructor|].
    specialize (IH c (nth_error_In _ _ Hk)).
    induction IH as [|q l _ IHl Hq]; [constructor|].
    cbn [map]. constructor; [assumption|].
    apply Forall_map. eapply Forall_impl; [|exact Hq].
    intros q' Hq'. cbn. right. auto.
  - intros k1 k2 c1 c2 x y Hlt H1 H2 Hx Hy. cbn [Nat.add] in Hx, Hy.
    assert (Hd : forall (c : Node) (k : nat) (z : list nat),
               In z (if (nodeType c =? marker)%N then [[k]]
                     else map (cons k) (textLeafPaths marker c)) ->
               exists z', z = k :: z').
    { intros c k z Hz. destruct (nodeType c =? marker)%N.
      - destruct Hz as [<-|[]]. eauto.
      - apply in_map_iff in Hz. destruct Hz as (z' & <- & _). eauto. }
    apply Hd in Hx, Hy. destruct Hx as [x' ->], Hy as [y' ->].
    cbn. now left.
Qed.

Lemma docBefore_irrefl (p : list nat) : ~ docBefore p p.
Proof.
  induction p as [|i p IH]; cbn; [tauto|]. intros [H|[_ H]]; [lia|auto].
Qed.

Lemma StronglySorted_NoDup {A} (R : A -> A -> Prop) (l : list A) :
  (forall x, ~ R x x) -> StronglySorted R l -> NoDup l.
Proof.
  intros Hirr. induction 1 as [|a l _ IH Ha]; constructor; [|assumption].
  intros Hin. rewrite Forall_forall in Ha. now apply (Hirr a), Ha.
Qed.

Lemma TextLeaf_nodeAt (marker : N) (n : Node) (p : list nat) :
  TextLeaf marker n p ->
  p <> [] /\ exists m, nodeAt n p = Some m /\ nodeType m = marker.
Proof.
  induction 1 as [n i c Hk Ht|n i c p Hk Ht _ IH].
  - split; [discriminate|]. exists c. cbn [nodeAt]. rewrite Hk. auto.
  - split; [discriminate|]. destruct IH as [_ (m & Hm & Hty)].
    exists m. cbn [nodeAt]. rewrite Hk. auto.
Qed.

(** With the text type of the DOM every text node below the root is a text
    leaf: what is above a node is an element. *)
Lemma Text_is_TextLeaf (p : list nat) : forall n d,
  p <> [] -> nodeAt n p = Some (Text d) -> TextLeaf TEXT_NODE n p.
Proof.
  induction p as [|i p IH]; intros n d Hp H; [contradiction|].
  cbn [nodeAt] in H. destruct (nth_error (childNodes n) i) as [c|] eqn:Hk;
    [|discriminate].
  destruct p as [|j p].
  - cbn in H. inversion H; subst. now apply leaf_child with (Text d).
  - apply leaf_below with c; [assumption| |].
    + destruct c; cbn; try discriminate.
      * cbn [nodeAt childNodes] in H. destruct j; discriminate.
    + apply (IH c d); [discriminate|assumption].
Qed.

Lemma NoDup_map_injective {A B} (f : A -> B) (l : list A) :
  (forall x y, f x = f y -> x = y) -> NoDup l -> NoDup (map f l).
Proof.
  intros Hinj. induction 1 as [|a l Ha _ IH]; cbn [map]; constructor;
    [|assumption].
  intros Hin. apply in_map_iff in Hin. destruct Hin as (b & Hb & Hin).
  apply Hinj in Hb. now subst.
Qed.

(** C5.  The mapping built from a tree, at construction and by [remap()],
    has exactly one entry for every text leaf (a node of the text type that
    the traversal reaches through nodes of other types; with the text type of
    the DOM, every text node below the root), in document order, which is the
    depth-first pre-order; the entry holds the text of the leaf and the
    child indices from the root joined by dots, and that address leads back
    to the leaf; building the mapping again on the same tree, from whatever
    mapping the instance holds, gives the same entries. *)
Theorem mapping_text_leaves_in_order :
  forall (options : Options) (r : Node),
    let this := constructor (inl r) options in
    let marker := textNodeType (config this) in
    exists paths,
      mapping this = map (entryAt r []) paths
      /\ (forall p, In p paths <-> TextLeaf marker r p)
      /\ StronglySorted docBefore paths
      /\ NoDup paths
      /\ NoDup (map snd (mapping this))
      /\ (forall p, In p paths ->
                    exists n, nodeAt r p = Some n
                              /\ nodeType n = marker
                              /\ entryAt r [] p = (textContent n, encode p)
                              /\ getNodeByAddress this (encode p) = Some (p, n))
      /\ (opt_textNodeType options = None ->
          forall p d, p <> [] -> nodeAt r p = Some (Text d) ->
                      In (d, encode p) (mapping this))
      /\ remap None this = (inr tt, this)
      /\ (forall stale, remap None (mkAracari (Some r) stale (config this))
                        = (inr tt, this))
      /\ mapping (snd (remap None (snd (remap None this)))) = mapping this.
Proof.
  intros options r this marker.
  assert (Em : mapping this = getTextNodeMapping (config this) r [])
    by reflexivity.
  assert (Er : root this = Some r) by reflexivity.
  exists (textLeafPaths marker r).
  assert (Hpaths : mapping this = map (entryAt r []) (textLeafPaths marker r)).
  { rewrite Em. apply getTextNodeMapping_paths. }
  assert (Hnd : NoDup (textLeafPaths marker r)).
  { eapply StronglySorted_NoDup;
      [apply docBefore_irrefl|apply textLeafPaths_sorted]. }
  assert (Hremap : remap None this = (inr tt, this)).
  { unfold remap. rewrite Er. destruct this as [ro ma co] eqn:Et.
    cbn [root mapping config] in *. inversion Er; subst ro. now rewrite <- Em. }
  split; [exact Hpaths|]. split; [apply textLeafPaths_spec|].
  split; [apply textLeafPaths_sorted|]. split; [exact Hnd|].
  split; [|split; [|split; [|split; [|split]]]].
  - rewrite Hpaths, map_map. cbn [entryAt snd app].
    apply NoDup_map_injective; [|exact Hnd].
    intros p q. apply encode_inj.
  - intros p Hp. apply textLeafPaths_spec in Hp.
    destruct (TextLeaf_nodeAt _ _ _ Hp) as [Hne (n & Hn & Ht)].
    exists n. split; [assumption|]. split; [assumption|]. split.
    + unfold entryAt. now rewrite Hn.
    + destruct p as [|i p]; [contradiction|].
      unfold getNodeByAddress. rewrite Er, decode_encode. cbn [option_map].
      rewrite walkNodes_path, Hn. reflexivity.
  - intros Hopt p d Hne Hn.
    assert (Hm : marker = TEXT_NODE).
    { unfold marker, this, constructor. now rewrite Hopt. }
    rewrite Hpaths. apply in_map_iff. exists p. split.
    + unfold entryAt. now rewrite Hn.
    + apply textLeafPaths_spec. rewrite Hm. eapply Text_is_TextLeaf; eauto.
  - exact Hremap.
  - intros stale. reflexivity.
  - now rewrite !Hremap.
Qed.

(** ** Splitting and joining *)

Lemma filterNull_app {A} (l1 l2 : list (option A)) :
  filterNull (l1 ++ l2) = filterNull l1 ++ filterNull l2.
Proof. apply flat_map_app. Qed.

Lemma filterNull_map_Some {A} (l : list A) : filterNull (map Some l) = l.
Proof.
  unfold filterNull. induction l as [|a l IH]; [reflexivity|].
  cbn [map flat_map app]. now rewrite IH.
Qed.

Lemma Array_get_In {A} (arr : list A) (i : Z) (a : A) :
  Array_get arr i = Some a -> In a arr.
Proof.
  unfold Array_get. destruct (i <? 0)%Z; [discriminate|]. apply nth_error_In.
Qed.


Section Interleave.

Variable re : RegExp.

(** No match of the expression is empty. *)
Hypothesis nonempty : forall prev rest w, matchAt re prev rest = Some w -> w <> [].

(** The pieces of [split] are what lies between the matches of [match]:
    the text is the first piece followed by the matches and the further
    pieces in turn. *)
Lemma splitLoop_execAll : forall rest prev skip seg,
  skip <= length rest ->
  exists c0 cs,
    splitLoop re prev rest skip seg = (rev seg ++ c0) :: cs
    /\ length cs = length (execAll re prev rest skip)
    /\ skipn skip rest = c0 ++ weave (execAll re prev rest skip) cs.
Proof.
  induction rest as [|c rest IH]; intros prev skip seg Hs.
  - destruct skip; [|cbn in Hs; lia]. cbn [splitLoop execAll].
    destruct (matchAt re prev []) as [w|] eqn:E.
    + exfalso. destruct (matchAt_prefix _ _ _ _ E) as [x Hx].
      apply (nonempty _ _ _ E). symmetry in Hx. now apply app_eq_nil in Hx.
    + exists [], []. now rewrite List.app_nil_r.
  - destruct skip as [|skip].
    + cbn [splitLoop execAll].
      destruct (matchAt re prev (c :: rest)) as [w|] eqn:E.
      * destruct w as [|x w']; [now apply nonempty in E|].
        destruct (matchAt_prefix _ _ _ _ E) as [y Hy].
        cbn [app] in Hy. inversion Hy; subst x rest. clear Hy.
        destruct (IH (Some c) (length w') []) as (c1 & cs & E1 & E2 & E3).
        { rewrite length_app. lia. }
        cbn [Nat.pred length]. rewrite E1. cbn [rev app].
        exists [], (c1 :: cs). rewrite List.app_nil_r.
        split; [reflexivity|]. split; [cbn [length]; now rewrite E2|].
        cbn [skipn weave app]. f_equal. rewrite <- E3.
        rewrite skipn_app, Nat.sub_diag, skipn_all. reflexivity.
      * destruct (IH (Some c) 0 (c :: seg)) as (c1 & cs & E1 & E2 & E3);
          [lia|].
        rewrite E1. exists (c :: c1), cs. cbn [rev]. rewrite <- app_assoc.
        split; [reflexivity|]. split; [assumption|].
        cbn [skipn] in *. cbn [app]. now rewrite <- E3.
    + cbn [splitLoop execAll skipn]. cbn [length] in Hs. apply IH. lia.
Qed.

Lemma String_split_match (s : str) (ms : list str) :
  String_match s re = Some ms ->
  exists c0 cs,
    String_split s re = c0 :: cs
    /\ length cs = length ms
    /\ s = c0 ++ weave ms cs.
Proof.
  unfold String_match, String_split. intros H.
  destruct (execAll re None s 0) as [|m0 ms0] eqn:E; [discriminate|].
  inversion H; subst ms. clear H.
  destruct s as [|c s].
  - exfalso. cbn [execAll] in E. destruct (matchAt re None []) as [w|] eqn:Ew.
    + destruct (matchAt_prefix _ _ _ _ Ew) as [x Hx].
      apply (nonempty _ _ _ Ew). symmetry in Hx. now apply app_eq_nil in Hx.
    + discriminate E.
  - destruct (splitLoop_execAll (c :: s) None 0 []) as (c0 & cs & E1 & E2 & E3);
      [lia|].
    rewrite E in E2, E3. exists c0, cs. auto.
Qed.

End Interleave.

Lemma joinArrayWith_from_S (onJoin : nat -> str) (arr : list str) : forall i acc,
  joinArrayWith_from (S i) arr onJoin acc = acc ++ joinTail onJoin (S i) arr.
Proof.
  induction arr as [|cur arr IH]; intros i acc; cbn [joinArrayWith_from joinTail].
  - now rewrite List.app_nil_r.
  - rewrite IH. cbn [Nat.eqb]. now rewrite <- !app_assoc.
Qed.

Lemma joinArrayWith_cons (onJoin : nat -> str) (c : str) (arr : list str) :
  joinArrayWith (c :: arr) onJoin = c ++ joinTail onJoin 1 arr.
Proof.
  unfold joinArrayWith. cbn [joinArrayWith_from Nat.eqb app].
  now rewrite joinArrayWith_from_S.
Qed.

Lemma joinTail_weave (onJoin : nat -> str) (cs : list str) : forall i ml,
  length cs <= length ml ->
  (forall j m, j < length cs -> nth_error ml j = Some m -> onJoin (i + j) = m) ->
  joinTail onJoin i cs = weave (firstn (length cs) ml) cs.
Proof.
  induction cs as [|c cs IH]; intros i ml Hl Hf; [reflexivity|].
  destruct ml as [|m ml]; [cbn in Hl; lia|].
  cbn [joinTail length firstn weave].
  rewrite <- (Hf 0 m) by (cbn; (lia || reflexivity)). rewrite Nat.add_0_r.
  f_equal. f_equal. apply IH; [cbn in Hl; lia|].
  intros j m' Hj Hm. rewrite <- (Hf (S j) m'); [now rewrite Nat.add_succ_r| |].
  - cbn [length]. lia.
  - exact Hm.
Qed.



Lemma Array_slice_firstn {A} (arr : list A) (e : nat) :
  Array_slice arr 0 (Some (Z.of_nat e)) = firstn e arr.
Proof.
  unfold Array_slice. cbn [Z.ltb Z.compare].
  replace (Z.of_nat e <? 0)%Z with false by (symmetry; apply Z.ltb_ge; lia).
  rewrite (Z.min_l 0) by lia. cbn [Z.to_nat skipn]. rewrite Z.sub_0_r.
  destruct (Z.min_spec (Z.of_nat e) (Z.of_nat (length arr))) as [[_ ->]|[H ->]].
  - now rewrite Nat2Z.id.
  - rewrite Nat2Z.id. rewrite !firstn_all2; (reflexivity || lia).
Qed.

Lemma Array_slice_skipn {A} (arr : list A) (b : nat) :
  Array_slice arr (Z.of_nat b) None = skipn b arr.
Proof.
  unfold Array_slice.
  replace (Z.of_nat b <? 0)%Z with false by (symmetry; apply Z.ltb_ge; lia).
  assert (E : skipn (Z.to_nat (Z.min (Z.of_nat b) (Z.of_nat (length arr)))) arr
              = skipn b arr).
  { destruct (Z.min_spec (Z.of_nat b) (Z.of_nat (length arr))) as [[_ ->]|[H ->]].
    - now rewrite Nat2Z.id.
    - rewrite Nat2Z.id. rewrite !skipn_all2; (reflexivity || lia). }
  rewrite E. apply firstn_all2. rewrite length_skipn. lia.
Qed.

Lemma Array_get_nat {A} (arr : list A) (k : nat) :
  Array_get arr (Z.of_nat k) = nth_error arr k.
Proof.
  unfold Array_get.
  replace (Z.of_nat k <? 0)%Z with false by (symmetry; apply Z.ltb_ge; lia).
  now rewrite Nat2Z.id.
Qed.

(** When the search text neither starts nor ends with a boundary character,
    the characters read around a match are those that the expression took. *)
Lemma surrounding_exact (text lead trail : str) :
  text <> [] -> firstBoundary text = [] -> lastBoundary text = [] ->
  (lead = [] \/ exists c, lead = [c] /\ isBoundaryChar c = true) ->
  (trail = [] \/ exists c, trail = [c] /\ isBoundaryChar c = true) ->
  firstBoundary (lead ++ text ++ trail) = lead
  /\ lastBoundary (lead ++ text ++ trail) = trail.
Proof.
  intros Hne Hf Hl Hlead Htrail. split.
  - destruct Hlead as [->|(c & -> & Hc)].
    + destruct text as [|t text]; [contradiction|]. exact Hf.
    + now apply firstBoundary_lead.
  - destruct Htrail as [->|(c & -> & Hc)].
    + rewrite List.app_nil_r. unfold lastBoundary in *.
      rewrite last_map_Some_app.
      destruct text as [|t text]; [contradiction|].
      cbn [map] in *. now rewrite (last_cons_default _ _ _ None).
    + rewrite !app_assoc. now apply lastBoundary_trail.
Qed.

Lemma leadOK_shape pw pre lead :
  leadOK pw pre lead ->
  lead = [] \/ exists c, lead = [c] /\ isBoundaryChar c = true.
Proof.
  unfold leadOK. destruct pw; [|auto]. intros [[-> _]|H]; auto.
Qed.

Lemma trailOK_shape pw trail post :
  trailOK pw trail post ->
  trail = [] \/ exists c, trail = [c] /\ isBoundaryChar c = true.
Proof.
  unfold trailOK. destruct pw; [|auto]. intros [[-> _]|H]; auto.
Qed.

Lemma searchPattern_nonempty (text : str) (pw : bool) :
  text <> [] ->
  forall prev rest w, matchAt (searchPattern text pw) prev rest = Some w -> w <> [].
Proof.
  intros Hne prev rest w H. apply matchAt_Some in H. destruct H as [x H].
  assert (E : exists pre, prev = last (map Some pre) None).
  { destruct prev as [c|]; [exists [c]|exists []]; reflexivity. }
  destruct E as [pre ->]. apply matchesAt_search in H.
  destruct H as (lead & trail & -> & _). intros E.
  apply app_eq_nil in E. destruct E as [_ E]. apply app_eq_nil in E. tauto.
Qed.



(** ** The facade *)

(** C2.  [replaceText] ends in one of two ways: it returns, or it throws
    the error that says that the text was not found.  It throws exactly when
    the target node does not resolve or its text has no occurrence of the
    search text of the kind the search expression asks for; then nothing has
    been assigned: the instance, with its tree and its mapping, is the one
    before the call, and [getText()] gives the same text. *)
Theorem replaceText_NotFound_iff_no_match :
  forall (this : Aracari) (text : str) (nodes : NodesArg) (options : ReplaceOptions),
    let out := replaceText text nodes options this in
    let pw := orDefault true (preserveWord options) in
    exists node,
      targetNode this text options = inr node
      /\ (fst out = inl (Error (notFoundMessage text))
          <-> forall ref, node = Some ref -> ~ Flanked pw text (textContent (snd ref)))
      /\ (fst out = inl (Error (notFoundMessage text)) \/ fst out = inr tt)
      /\ (fst out = inl (Error (notFoundMessage text)) ->
          snd out = this
          /\ root (snd out) = root this
          /\ mapping (snd out) = mapping this
          /\ getText (snd out) = getText this).
Proof.
  intros this text nodes options out pw.
  destruct (replaceText_run this text nodes options) as (node & Et & Er).
  exists node. split; [exact Et|]. unfold out. rewrite Er. clear Er.
  cbv zeta. fold pw.
  destruct node as [[loc n]|].
  - destruct (String_match (textContent n) (searchPattern text pw)) eqn:Em.
    + cbn [fst snd]. split; [|split].
      * split; [discriminate|]. intros H. exfalso.
        specialize (H (loc, n) eq_refl). cbn [snd] in H.
        apply String_match_None in H. congruence.
      * now right.
      * discriminate.
    + cbn [fst snd]. split; [|split].
      * split; [|reflexivity]. intros _ ref Hr. inversion Hr; subst.
        cbn [snd]. now apply String_match_None.
      * now left.
      * auto.
  - cbn [fst snd]. split; [|split].
    + split; [|reflexivity]. intros _ ref Hr. discriminate Hr.
    + now left.
    + auto.
Qed.

(** C9.  [replaceText] does not assign the mapping: after the call, whether
    it returned or threw, the instance holds the mapping and the configuration
    it held before, and [getText()] gives the same text; the mapping changes
    with [remap]: to the mapping given, or to the one built from the tree as
    it is by then.  On the tree of "all the foo people are all bar", after
    replacing "all" by "todo" the tree is changed and [getText()] still gives
    the old text, until [remap()]. *)
Theorem replaceText_leaves_mapping :
  forall (this : Aracari) (text : str) (nodes : NodesArg) (options : ReplaceOptions),
    let this' := snd (replaceText text nodes options this) in
    mapping this' = mapping this
    /\ getText this' = getText this
    /\ config this' = config this
    /\ (forall m, mapping (snd (remap (Some m) this')) = m)
    /\ (forall r', root this' = Some r' ->
                   mapping (snd (remap None this'))
                   = getTextNodeMapping (config this) r' [])
    /\ (let start := constructor (inl (paragraph "all the foo people are all bar")) noOptions in
        let replaced :=
          snd (replaceText (lit "all") (NodeArray [Text (lit "todo")])
                           (replaceOptions None None) start) in
        root replaced
        = Some (Element [Element [Text (lit "todo");
                                  Text (lit " the foo people are all bar")]])
        /\ getText replaced = lit "all the foo people are all bar"
        /\ getText (snd (remap None replaced)) = lit "todo the foo people are all bar").
Proof.
  intros this text nodes options this'.
  assert (E : mapping this' = mapping this /\ config this' = config this).
  { unfold this'.
    destruct (replaceText_run this text nodes options) as (node & _ & ->).
    cbv zeta. destruct node as [[loc n]|]; [|auto].
    destruct (String_match _ _); auto. }
  destruct E as [Em Ec].
  split; [exact Em|]. split; [unfold getText; now rewrite Em|].
  split; [exact Ec|]. split; [reflexivity|]. split.
  - intros r' Hr. unfold remap. rewrite Hr. cbn [snd mapping]. now rewrite Ec.
  - vm_compute. auto.
Qed.

(** C10.  [getAddressesForText] never returns null, and never throws: it
    returns the addresses of the entries that [getMappingsForText] keeps,
    which are the entries of the mapping whose text contains the query, in
    the order of the mapping; when there is none the list is empty, while
    [getAddressForText] returns null. *)
Theorem getAddressesForText_never_null :
  forall (this : Aracari) (text : str) (cs pw : option bool),
  exists matched f,
    getMappingsForText this text cs pw = inr matched
    /\ matched = filter f (mapping this)
    /\ (forall e, f e = true <->
                  Occurs (ignoreCase (lookupPattern text (orDefault true cs)
                                                    (orDefault false pw)))
                         (orDefault false pw) text (fst e))
    /\ getAddressesForText this text cs pw = inr (Some (map snd matched))
    /\ (matched = [] ->
        getAddressesForText this text cs pw = inr (Some [])
        /\ getAddressForText this text cs pw = inr None).
Proof.
  intros this text cs pw.
  exists (filter (entryMatches (lookupPattern text (orDefault true cs) (orDefault false pw)))
                 (mapping this)),
         (entryMatches (lookupPattern text (orDefault true cs) (orDefault false pw))).
  split; [apply getMappingsForText_ok|]. split; [reflexivity|]. split.
  - intros e. apply entryMatches_Occurs.
  - rewrite getAddressesForText_ok, getAddressForText_ok.
    split; [reflexivity|]. intros ->. auto.
Qed.

Lemma encode_nonempty (p : list nat) : p <> [] -> encode p <> [].
Proof.
  intros Hp He. apply Hp. apply encode_inj. now rewrite He.
Qed.

(** Every address of a mapping built from a tree is a non-empty text. *)
Lemma getTextNodeMapping_address_truthy cfg r (e : MappingEntry) :
  In e (getTextNodeMapping cfg r []) -> truthy (snd e) = true.
Proof.
  rewrite getTextNodeMapping_paths. intros H. apply in_map_iff in H.
  destruct H as (p & <- & Hp). apply textLeafPaths_spec in Hp.
  apply TextLeaf_nodeAt in Hp. destruct Hp as [Hne _].
  cbn [entryAt snd app]. apply encode_nonempty in Hne.
  now destruct (encode p).
Qed.

(** C7, as the code has it.  [isInSingleNode] is true when at least one
    entry of the mapping matches the text (some single node holds it) and the
    address of the first of them is not the empty text; it is false when no
    entry matches.  On a mapping built from a tree no address is empty, so it
    is true exactly when some entry matches. *)
Theorem isInSingleNode_some_entry :
  forall (this : Aracari) (text : str) (cs : option bool),
  exists matched,
    getMappingsForText this text cs None = inr matched
    /\ isInSingleNode this text cs
       = inr (match matched with
              | e :: _ => truthy (snd e)
              | [] => false
              end)
    /\ (matched = [] -> isInSingleNode this text cs = inr false)
    /\ (forall options r,
           this = constructor (inl r) options ->
           (isInSingleNode this text cs = inr true <-> matched <> [])).
Proof.
  intros this text cs.
  exists (filter (entryMatches (lookupPattern text (orDefault true cs) false))
                 (mapping this)).
  assert (E : isInSingleNode this text cs
              = inr (match filter (entryMatches (lookupPattern text (orDefault true cs) false))
                                  (mapping this) with
                     | e :: _ => truthy (snd e)
                     | [] => false
                     end)).
  { unfold isInSingleNode. rewrite getAddressForText_ok. cbn [orDefault].
    now destruct (filter _ _). }
  split; [apply getMappingsForText_ok|]. split; [exact E|]. split.
  - intros H. now rewrite E, H.
  - intros options r ->. rewrite E.
    destruct (filter _ _) as [|e l] eqn:Ef.
    + split; [discriminate|]. intros H. now contradiction H.
    + assert (Hin : In e (mapping (constructor (inl r) options))).
      { eapply proj1. apply filter_In. rewrite Ef. now left. }
      apply getTextNodeMapping_address_truthy in Hin. rewrite Hin.
      split; [discriminate|reflexivity].
Qed.

(** C7, as stated, fails: "toucan" is in two entries of this mapping, and
    [isInSingleNode] is true. *)
Lemma isInSingleNode_not_exactly_one :
  let this :=
    constructor (inr [(lit "toucans", lit "0.21.0");
                      (lit "saffron toucanet", lit "0.23.0")]) noOptions in
  isInSingleNode this (lit "toucan") None = inr true
  /\ getMappingsForText this (lit "toucan") None None
     = inr [(lit "toucans", lit "0.21.0"); (lit "saffron toucanet", lit "0.23.0")]
  /\ ~ (isInSingleNode this (lit "toucan") None = inr true
        <-> exists e, getMappingsForText this (lit "toucan") None None = inr [e]).
Proof.
  cbv zeta. split; [vm_compute; reflexivity|]. split; [vm_compute; reflexivity|].
  intros [H _].
  assert (T : isInSingleNode
                (constructor (inr [(lit "toucans", lit "0.21.0");
                                   (lit "saffron toucanet", lit "0.23.0")]) noOptions)
                (lit "toucan") None = inr true) by (vm_compute; reflexivity).
  destruct (H T) as [e He]. vm_compute in He. discriminate He.
Qed.

(** C3, on the code.  The flag [i] is given to the expression when
    [caseSensitive] is true, and left out when it is false: a lookup keeps the
    entries whose text contains the query with letter case ignored when
    [caseSensitive] is true, and letter for letter when it is false.  With
    the one text "Hello World", the query "hello" is found when
    [caseSensitive] is true (also by default) and is not found when it is
    false. *)
Theorem lookup_case_flag_inverted :
  (forall (this : Aracari) (text : str) (cs pw : bool),
      exists f,
        getMappingsForText this text (Some cs) (Some pw) = inr (filter f (mapping this))
        /\ forall e, f e = true <-> Occurs cs pw text (fst e))
  /\ (let this := constructor (inl (paragraph "Hello World")) noOptions in
      mapping this = [(lit "Hello World", lit "0.0")]
      /\ getAddressForText this (lit "hello") (Some true) None = inr (Some (lit "0.0"))
      /\ getAddressForText this (lit "hello") None None = inr (Some (lit "0.0"))
      /\ getAddressesForText this (lit "hello") (Some true) None = inr (Some [lit "0.0"])
      /\ getMappingsForText this (lit "hello") (Some true) None
         = inr [(lit "Hello World", lit "0.0")]
      /\ getAddressForText this (lit "hello") (Some false) None = inr None
      /\ getAddressesForText this (lit "hello") (Some false) None = inr (Some [])
      /\ getMappingsForText this (lit "hello") (Some false) None = inr []
      /\ getAddressForText this (lit "Hello") (Some false) None = inr (Some (lit "0.0"))).
Proof.
  split.
  - intros this text cs pw. exists (entryMatches (lookupPattern text cs pw)).
    split; [apply getMappingsForText_ok|].
    intros e. rewrite entryMatches_Occurs. now destruct cs.
  - vm_compute. repeat split; reflexivity.
Qed.

(** C6, on the code.  "toucans" occurs in the text of exactly one entry of
    the mapping of [<div><b>Toucans</b> are birds; toucans eat fruit</div>];
    the address looked up for it is the address of the other entry, whose
    text is given back and does not contain "toucans". *)
Theorem address_round_trip_other_leaf :
  let this :=
    constructor (inl (Element [Element [Text (lit "Toucans")];
                               Text (lit " are birds; toucans eat fruit")]))
                noOptions in
  let s := lit "toucans" in
  mapping this = [(lit "Toucans", lit "0.0");
                  (lit " are birds; toucans eat fruit", lit "1")]
  /\ filter (fun e => includes (fst e) s) (mapping this)
     = [(lit " are birds; toucans eat fruit", lit "1")]
  /\ getAddressForText this s None None = inr (Some (lit "0.0"))
  /\ getTextByAddress this (lit "0.0") = Some (lit "Toucans")
  /\ includes (lit "Toucans") s = false.
Proof.
  vm_compute. repeat split; reflexivity.
Qed.

(** C1, on the code.  The text "a, a. a!" has three matches of "a"; with
    [replacementIndex] 1 the second is replaced by "b", and the text after it
    is rebuilt with the boundary characters of the second match in place of
    those of the third: the result reads "a, b. a." and not "a, b. a!".  The
    two cases that the specification gives come out as it says. *)
Theorem replaceText_later_boundary_lost :
  let pattern := searchPattern (lit "a") true in
  let this := constructor (inl (paragraph "a, a. a!")) noOptions in
  let out := replaceAndRemap "a" "b" (replaceOptions None (Some 1%Z)) this in
  String_match (lit "a, a. a!") pattern = Some [lit "a,"; lit " a."; lit " a!"]
  /\ String_split (lit "a, a. a!") pattern = [[]; []; []; []]
  /\ fst out = inr tt
  /\ root (snd out)
     = Some (Element [Element [Text (lit "a, "); Text (lit "b"); Text (lit ". a.")]])
  /\ getText (snd out) = lit "a, b. a."
  /\ getText (snd out) <> lit "a, b. a!"
  /\ getText (snd (replaceAndRemap "all" "todo" (replaceOptions None None)
                     (constructor (inl (paragraph "all the foo people are all bar"))
                                  noOptions)))
     = lit "todo the foo people are all bar"
  /\ getText (snd (replaceAndRemap "foo bar" "baz qux" (replaceOptions None (Some 1%Z))
                     (constructor (inl (paragraph "foo bar or foo bar")) noOptions)))
     = lit "foo bar or baz qux".
Proof.
  vm_compute. repeat split; try reflexivity. discriminate.
Qed.

(** C4.  With [preserveWord] the search expression is well formed, and each
    of its matches in a text is the search text with, before it, nothing at
    the start of the text or one boundary character, and after it, nothing at
    the end of the text or one boundary character: the search text is never
    matched inside a longer word.  For the match that is replaced, a boundary
    character that the match took is the last character of the text put
    before the replacement nodes, or the first of the text put after them.
    "Done is the one thing." with "one" replaced by "uno" reads
    "Done is the uno thing."; "foo-bar" with "foo" replaced by "baz" reads
    "baz-bar". *)
Theorem preserveWord_flanked_and_kept :
  forall (this : Aracari) (text s : str) (nodes : NodesArg) (k : Z),
  exists re,
    createRegExpSearch text true = Some re
    /\ (forall ms m,
           String_match s re = Some ms -> In m ms ->
           exists pre lead trail post,
             s = pre ++ m ++ post
             /\ m = lead ++ text ++ trail
             /\ (lead = [] /\ pre = []
                 \/ exists c, lead = [c] /\ isBoundaryChar c = true)
             /\ (trail = [] /\ post = []
                 \/ exists c, trail = [c] /\ isBoundaryChar c = true))
    /\ (forall ms m lead trail,
           String_match s re = Some ms -> Array_get ms k = Some m ->
           m = lead ++ text ++ trail ->
           (lead = [] \/ exists c, lead = [c] /\ isBoundaryChar c = true) ->
           (trail = [] \/ exists c, trail = [c] /\ isBoundaryChar c = true) ->
           exists preText postText preChar postChar,
             replacementNodes this text nodes k ms (String_split s re)
             = filterNull [maybeCreateTextNode this (preText ++ preChar)]
               ++ match nodes with NodeArray ns => ns | OneNode n => [n] end
               ++ filterNull [maybeCreateTextNode this (postChar ++ postText)]
             /\ (lead <> [] -> preChar = lead)
             /\ (trail <> [] -> postChar = trail))
    /\ (let out :=
          replaceAndRemap "one" "uno" (replaceOptions (Some true) None)
            (constructor (inl (paragraph "Done is the one thing.")) noOptions) in
        fst out = inr tt
        /\ root (snd out)
           = Some (Element [Element [Text (lit "Done is the "); Text (lit "uno");
                                     Text (lit " thing.")]])
        /\ getText (snd out) = lit "Done is the uno thing.")
    /\ (let out :=
          replaceAndRemap "foo" "baz" (replaceOptions (Some true) None)
            (constructor (inl (paragraph "foo-bar")) noOptions) in
        fst out = inr tt
        /\ root (snd out)
           = Some (Element [Element [Text (lit "baz"); Text (lit "-bar")]])
        /\ getText (snd out) = lit "baz-bar").
Proof.
  intros this text s nodes k. exists (searchPattern text true).
  split; [apply createRegExpSearch_ok|]. split; [|split; [|split]].
  - intros ms m Hm Hin.
    destruct (String_match_In _ _ _ _ _ Hm Hin)
      as (pre & lead & trail & post & Hs & He & Hl & Ht).
    exists pre, lead, trail, post. auto.
  - intros ms m lead trail Hm Hk He Hl Ht.
    unfold replacementNodes. rewrite Hk, getSurroundingChars_Some.
    eexists _, _, (firstBoundary m), (lastBoundary m).
    split; [|split].
    + rewrite !filterNull_app, filterNull_map_Some. reflexivity.
    + intros Hne. destruct Hl as [->|(c & -> & Hc)]; [contradiction|].
      subst m. now apply firstBoundary_lead.
    + intros Hne. destruct Ht as [->|(c & -> & Hc)]; [contradiction|].
      subst m. rewrite !app_assoc. now apply lastBoundary_trail.
  - vm_compute. repeat split; reflexivity.
  - vm_compute. repeat split; reflexivity.
Qed.

(** ** Cases of the test suite *)


(** "replaceText should not append nodes if no matches are found": after the
    two occurrences of "language" have been replaced, a third call throws,
    and the text is the one left by the first two. *)
Example test_not_found_after_two_replacements :
  let quoted :=
    lit " of 12 April 1996 states that " ++ [dquote]
    ++ lit "French is the official language, Tahitian and other Polynesian languages can be used."
    ++ [dquote]
    ++ lit " At the 2017 census, among the population whose age was 15 and older" in
  let element :=
    Element [Element [Element [Text (lit "French")];
                      Text (lit " is the only official language of French Polynesia.");
                      Element [Element [Text (lit "[31]")]];
                      Text (lit " An ");
                      Element [Text (lit "organic law")];
                      Text quoted]] in
  let options := replaceOptions (Some true) None in
  let twice :=
    _ <- replaceAndRemap "language" "foo" options ;;
    replaceAndRemap "language" "bar" options in
  let out :=
    (_ <- twice ;; replaceAndRemap "language" "baz" options)
      (constructor (inl element) noOptions) in
  fst out = inl (Error (notFoundMessage (lit "language")))
  /\ snd out = snd (twice (constructor (inl element) noOptions))
  /\ getText (snd out)
     = lit "French is the only official foo of French Polynesia.[31] An organic law of 12 April 1996 states that "
       ++ [dquote]
       ++ lit "French is the official bar, Tahitian and other Polynesian languages can be used."
       ++ [dquote]
       ++ lit " At the 2017 census, among the population whose age was 15 and older".
Proof.
  vm_compute. repeat split; reflexivity.
Qed.

(** "replaceText when passed an option of preserveWord and a sentence should
    still work". *)
Example test_preserveWord_sentence :
  getText (snd (replaceAndRemap "oo bar" "foo bar" (replaceOptions (Some true) None)
                  (constructor (inl (paragraph "Foo bar or oo bar")) noOptions)))
  = lit "Foo bar or foo bar".
Proof.
  vm_compute. reflexivity.
Qed.

(** "replaceText should avoid any side-effects when replacing text": words
    replaced by themselves, one after the other, leave the text as it was. *)
Example test_replace_words_by_themselves :
  let originalText :=
    "Arc is a browser made by The Browser Company, which changed how I think about browsers. I have enjoyed using it over the past month, and I would like to share why I think you should make Arc your default browser."%string in
  let options := replaceOptions (Some true) None in
  let self (w : string) := replaceAndRemap w w options in
  let out :=
    (_ <- self "a" ;; _ <- self "think" ;; _ <- self "about" ;; _ <- self "I" ;;
     _ <- self "have" ;; _ <- self "it" ;; _ <- self "past" ;; _ <- self "like" ;;
     self "to")%string
      (constructor (inl (paragraph originalText)) noOptions) in
  fst out = inr tt /\ getText (snd out) = lit originalText.
Proof.
  vm_compute. split; reflexivity.
Qed.

(** * Further properties of the code *)

(** ** [escapeRegExp] *)

(** X1.  Whatever the text, its escaped form is a well-formed pattern, and
    that pattern matches at a position exactly when the input there starts
    with the text, letter for letter; what it matches is the text. *)
Theorem escapeRegExp_matches_literally :
  forall (text : str) (prev : option ascii) (rest : str),
  exists r,
    parseAtoms (escapeRegExp text) = Some r
    /\ forall w x, In (w, x) (matchesAt false r prev rest)
                   <-> w = text /\ rest = text ++ x.
Proof.
  intros text prev rest. exists (literal text).
  split; [apply parseAtoms_escapeRegExp|].
  intros w x. rewrite matchesAt_literal, Forall2_chr_eqb_false.
  split.
  - intros [-> ->]. auto.
  - intros [-> ->]. auto.
Qed.

Lemma unescape_escapeChar (c : ascii) (p : str) :
  unescape (escapeChar c ++ p) = c :: unescape p.
Proof.
  unfold escapeChar. destruct (isSyntaxCharacter c) eqn:E.
  - cbn [app unescape]. now rewrite N.eqb_refl.
  - cbn [app unescape]. destruct (code c =? code backslash)%N eqn:Eb;
      [|reflexivity].
    apply code_inj in Eb. subst c. discriminate E.
Qed.

Lemma unescape_flat_map_escapeChar (s : str) :
  unescape (flat_map escapeChar s) = s.
Proof.
  induction s as [|c s IH]; [reflexivity|].
  cbn [flat_map]. now rewrite unescape_escapeChar, IH.
Qed.

Lemma length_flat_map_escapeChar (s : str) :
  length (flat_map escapeChar s) = length s + countSyntaxCharacters s.
Proof.
  unfold countSyntaxCharacters. induction s as [|c s IH]; [reflexivity|].
  cbn [flat_map filter]. rewrite length_app, IH. unfold escapeChar.
  destruct (isSyntaxCharacter c); cbn [length]; lia.
Qed.

(** X2.  [escapeRegExp] loses nothing: dropping the backslashes it put in
    gives the text back, so two different texts never have the same escaped
    form; it adds one character for each of the characters it escapes, and
    returns the text as it is exactly when the text has none of them (the
    empty text included). *)
Theorem escapeRegExp_round_trip :
  forall (text : str),
    unescape (escapeRegExp text) = text
    /\ (forall text', escapeRegExp text = escapeRegExp text' -> text = text')
    /\ length (escapeRegExp text) = length text + countSyntaxCharacters text
    /\ (escapeRegExp text = text <-> existsb isSyntaxCharacter text = false).
Proof.
  intros text. split; [|split; [|split]].
  - rewrite escapeRegExp_spec. apply unescape_flat_map_escapeChar.
  - intros text' H. apply (f_equal unescape) in H.
    now rewrite !escapeRegExp_spec, !unescape_flat_map_escapeChar in H.
  - rewrite escapeRegExp_spec. apply length_flat_map_escapeChar.
  - split.
    + intros H. apply (f_equal (@length _)) in H.
      rewrite escapeRegExp_spec, length_flat_map_escapeChar in H.
      assert (Hc : countSyntaxCharacters text = 0) by lia.
      unfold countSyntaxCharacters in Hc. apply length_zero_iff_nil in Hc.
      destruct (existsb isSyntaxCharacter text) eqn:E; [|reflexivity].
      apply existsb_exists in E. destruct E as (c & Hin & Hc').
      assert (Hf : In c (filter isSyntaxCharacter text))
        by (apply filter_In; auto).
      rewrite Hc in Hf. contradiction.
    + intros H. rewrite escapeRegExp_spec. now apply flat_map_escapeChar_plain.
Qed.

(** ** [getSurroundingChars] and [joinArrayWith] *)

Lemma last_map_Some_rev (m : str) :
  last (map Some m) None = hd_error (rev m).
Proof.
  destruct m as [|a m] using rev_ind; [reflexivity|].
  rewrite last_map_Some_app, rev_app_distr. reflexivity.
Qed.

Lemma isBoundaryChar_spec (c : ascii) :
  isBoundaryChar c = true <->
  In c ["."%char; "!"%char; "?"%char; "'"%char; dquote; "-"%char; ","%char]
  \/ isWhiteSpace c = true.
Proof.
  unfold isBoundaryChar, class_matches, wordBoundaryChars.
  cbn [existsb item_matches chr_eqb In].
  rewrite !orb_true_iff, !code_inj.
  assert (F : false = true <-> False) by (split; [discriminate|tauto]).
  rewrite F. tauto.
Qed.

(** X3.  [getSurroundingChars] gives the first character of the match when
    that character is a boundary character (a full stop, an exclamation mark,
    a question mark, an apostrophe, a double quote, a hyphen, a comma or white
    space) and the last character when that one is, each time the empty text
    otherwise; for a match of one boundary character it gives that character
    twice, and for the empty text and for a missing match two empty texts. *)
Theorem getSurroundingChars_reads_both_ends :
  (forall m : str,
      getSurroundingChars (Some m)
      = (match m with
         | c :: _ => if isBoundaryChar c then [c] else []
         | [] => []
         end,
         match rev m with
         | c :: _ => if isBoundaryChar c then [c] else []
         | [] => []
         end))
  /\ (forall c, isBoundaryChar c = true <->
                In c ["."%char; "!"%char; "?"%char; "'"%char; dquote; "-"%char; ","%char]
                \/ isWhiteSpace c = true)
  /\ (forall c, isBoundaryChar c = true -> getSurroundingChars (Some [c]) = ([c], [c]))
  /\ getSurroundingChars (Some []) = ([], [])
  /\ getSurroundingChars None = ([], []).
Proof.
  assert (E : forall m : str,
             getSurroundingChars (Some m)
             = (match m with
                | c :: _ => if isBoundaryChar c then [c] else []
                | [] => []
                end,
                match rev m with
                | c :: _ => if isBoundaryChar c then [c] else []
                | [] => []
                end)).
  { intros m. rewrite getSurroundingChars_Some. unfold firstBoundary, lastBoundary.
    rewrite last_map_Some_rev. now destruct (rev m). }
  split; [exact E|]. split; [exact isBoundaryChar_spec|]. split; [|split].
  - intros c Hc. rewrite E. cbn [rev app]. now rewrite Hc.
  - apply E.
  - reflexivity.
Qed.

Lemma joinTail_const (sep : str) (arr : list str) : forall i,
  joinTail (fun _ => sep) i arr = flat_map (fun cur => sep ++ cur) arr.
Proof.
  induction arr as [|cur arr IH]; intros i; [reflexivity|].
  cbn [joinTail flat_map]. now rewrite IH, <- app_assoc.
Qed.

Lemma Array_join_cons (sep c : str) (arr : list str) :
  Array_join sep (c :: arr) = c ++ flat_map (fun cur => sep ++ cur) arr.
Proof.
  revert c. induction arr as [|d arr IH]; intros c.
  - cbn. now rewrite List.app_nil_r.
  - change (Array_join sep (c :: d :: arr)) with (c ++ sep ++ Array_join sep (d :: arr)).
    rewrite IH. cbn [flat_map]. now rewrite <- !app_assoc.
Qed.

Lemma joinTail_ext (f g : nat -> str) (arr : list str) : forall i,
  (forall j, i <= j < i + length arr -> f j = g j) ->
  joinTail f i arr = joinTail g i arr.
Proof.
  induction arr as [|cur arr IH]; intros i H; [reflexivity|].
  cbn [joinTail]. rewrite (H i) by (cbn [length]; lia).
  rewrite IH; [reflexivity|]. intros j Hj. apply H. cbn [length]. lia.
Qed.

(** X4.  [joinArrayWith] with a callback that gives the same text for every
    index is [join] with that text; in general the callback is used for the
    indices from 1 to the last one only, the result being the first element
    followed, for each further element, by the text of the callback at its
    index and the element; an empty array gives the empty text. *)
Theorem joinArrayWith_is_join :
  (forall (sep : str) (arr : list str),
      joinArrayWith arr (fun _ => sep) = Array_join sep arr)
  /\ (forall (f g : nat -> str) (arr : list str),
         (forall i, 1 <= i < length arr -> f i = g i) ->
         joinArrayWith arr f = joinArrayWith arr g)
  /\ (forall (f : nat -> str) (c : str) (arr : list str),
         joinArrayWith (c :: arr) f = c ++ joinTail f 1 arr)
  /\ (forall f : nat -> str, joinArrayWith [] f = []).
Proof.
  split; [|split; [|split]].
  - intros sep [|c arr]; [reflexivity|].
    now rewrite joinArrayWith_cons, joinTail_const, Array_join_cons.
  - intros f g [|c arr] H; [reflexivity|].
    rewrite !joinArrayWith_cons. f_equal. apply joinTail_ext.
    intros j Hj. apply H. cbn [length]. lia.
  - intros f c arr. apply joinArrayWith_cons.
  - reflexivity.
Qed.

(** ** [replaceText]: the index, the nodes put in *)

(** X6.  When [replacementIndex] is the number of matches or more, nothing
    is replaced and nothing is thrown: the node is replaced by one text node
    with its whole text, followed by the replacement nodes (the search text
    not empty and without a boundary character at its ends). *)
Theorem replacementNodes_index_past_matches :
  forall (this : Aracari) (text s : str) (nodes : NodesArg) (pw : bool)
         (k : nat) (ms : list str),
    text <> [] -> firstBoundary text = [] -> lastBoundary text = [] ->
    String_match s (searchPattern text pw) = Some ms ->
    length ms <= k ->
    replacementNodes this text nodes (Z.of_nat k) ms
                     (String_split s (searchPattern text pw))
    = createTextNode (config this) s
      :: match nodes with NodeArray ns => ns | OneNode n => [n] end.
Proof.
  intros this text s nodes pw k ms Hne Hf Hl Hm Hk.
  assert (Hreb : forall j m', nth_error ms j = Some m' ->
                              rebuilt text (nth_error ms j) = m').
  { intros j m' Hj. rewrite Hj. unfold rebuilt. rewrite getSurroundingChars_Some.
    destruct (String_match_In _ _ _ _ _ Hm (nth_error_In _ _ Hj))
      as (pre & lead & trail & post & _ & -> & H1 & H2).
    apply leadOK_shape in H1. apply trailOK_shape in H2.
    destruct (surrounding_exact text lead trail Hne Hf Hl H1 H2) as [-> ->].
    reflexivity. }
  destruct (String_split_match _ (searchPattern_nonempty text pw Hne) s ms Hm)
    as (c0 & cs & Esplit & Elen & Es).
  assert (Hs : s <> []).
  { destruct ms as [|m ms'].
    - unfold String_match in Hm. destruct (execAll _ _ _ _); discriminate.
    - destruct (String_match_In _ _ _ _ m Hm (or_introl eq_refl))
        as (pre & lead & trail & post & -> & -> & _).
      intros E. apply app_eq_nil in E. destruct E as [_ E].
      apply app_eq_nil in E. destruct E as [E _].
      apply app_eq_nil in E. destruct E as [_ E].
      apply app_eq_nil in E. tauto. }
  unfold replacementNodes.
  rewrite Array_get_nat.
  replace (nth_error ms k) with (@None str) by (symmetry; now apply nth_error_None).
  rewrite getSurroundingChars_None, Esplit.
  replace (Z.of_nat k + 1)%Z with (Z.of_nat (S k)) by lia.
  rewrite Array_slice_firstn, Array_slice_skipn.
  cbn [firstn skipn]. rewrite firstn_all2, skipn_all2 by lia.
  rewrite joinArrayWith_cons.
  assert (Epre : joinTail (fun nextIndex => rebuilt text (nth_error ms (nextIndex - 1)))
                          1 cs
                 = weave ms cs).
  { rewrite (joinTail_weave _ _ 1 ms).
    - rewrite Elen, firstn_all. reflexivity.
    - lia.
    - intros j m' _ Hj. replace (1 + j - 1) with j by lia. now apply Hreb. }
  unfold rebuilt in Epre. rewrite Epre, <- Es. rewrite List.app_nil_r.
  unfold joinArrayWith. cbn [joinArrayWith_from app].
  change (maybeCreateTextNode this s :: ?l) with ([maybeCreateTextNode this s] ++ l).
  rewrite !filterNull_app, filterNull_map_Some.
  unfold maybeCreateTextNode. destruct s as [|c s']; [contradiction|].
  cbn [filterNull flat_map app]. now rewrite List.app_nil_r.
Qed.

(** X6 at "foo bar or foo bar", which has two matches, and the index 2. *)
Lemma replacementNodes_index_past_matches_witness :
  let this := constructor (inl (paragraph "foo bar or foo bar")) noOptions in
  replacementNodes this (lit "foo bar") (OneNode (Comment [])) 2
                   [lit "foo bar "; lit " foo bar"]
                   (String_split (lit "foo bar or foo bar")
                                 (searchPattern (lit "foo bar") true))
  = [Text (lit "foo bar or foo bar"); Comment []].
Proof.
  cbv zeta.
  apply (replacementNodes_index_past_matches
           (constructor (inl (paragraph "foo bar or foo bar")) noOptions)
           (lit "foo bar") (lit "foo bar or foo bar") (OneNode (Comment []))
           true 2 [lit "foo bar "; lit " foo bar"]).
  - discriminate.
  - reflexivity.
  - reflexivity.
  - vm_compute. reflexivity.
  - cbn [length]. lia.
Defined.

(** X13.  Whatever the matches and the index, [replaceText] puts in the
    replacement nodes as they are, in their order, with at most one text node
    before them and at most one after them, and a text node that it creates
    never has an empty text. *)
Theorem replacementNodes_at_most_two_text_nodes :
  forall (this : Aracari) (text : str) (nodes : NodesArg) (k : Z)
         (textMatch contents : list str),
  exists before after,
    replacementNodes this text nodes k textMatch contents
    = before ++ match nodes with NodeArray ns => ns | OneNode n => [n] end ++ after
    /\ (before = []
        \/ exists t, t <> [] /\ before = [createTextNode (config this) t])
    /\ (after = []
        \/ exists t, t <> [] /\ after = [createTextNode (config this) t]).
Proof.
  intros this text nodes k textMatch contents. unfold replacementNodes.
  destruct (getSurroundingChars (Array_get textMatch k)) as [preChar postChar].
  rewrite !filterNull_app, filterNull_map_Some.
  eexists _, _. split; [reflexivity|].
  assert (H : forall t,
             filterNull [maybeCreateTextNode this t] = []
             \/ exists t', t' <> []
                           /\ filterNull [maybeCreateTextNode this t]
                              = [createTextNode (config this) t']).
  { intros [|c t]; [now left|]. right. exists (c :: t).
    split; [discriminate|reflexivity]. }
  split; apply H.
Qed.

(** ** Lookups on the mapping of a tree *)

Lemma mapping_of_tree (options : Options) (r : Node) :
  let this := constructor (inl r) options in
  mapping this
  = map (entryAt r []) (textLeafPaths (textNodeType (config this)) r)
  /\ NoDup (map snd (mapping this))
  /\ root this = Some r.
Proof.
  cbv zeta.
  assert (E : mapping (constructor (inl r) options)
              = map (entryAt r [])
                    (textLeafPaths (textNodeType (config (constructor (inl r) options))) r)).
  { apply getTextNodeMapping_paths. }
  split; [exact E|]. split; [|reflexivity].
  rewrite E, map_map. cbn [entryAt snd app].
  apply NoDup_map_injective; [intros p q; apply encode_inj|].
  eapply StronglySorted_NoDup; [apply docBefore_irrefl|apply textLeafPaths_sorted].
Qed.

Lemma find_unique_address (m : Mapping) (e : MappingEntry) :
  NoDup (map snd m) -> In e m ->
  find (fun '(_, nodeAddress) => str_eqb nodeAddress (snd e)) m = Some e.
Proof.
  induction m as [|[t a] m IH]; intros Hnd Hin; [contradiction|].
  cbn [map snd] in Hnd. inversion Hnd as [|a' l Ha Hnd']; subst.
  cbn [find]. destruct Hin as [<-|Hin].
  - cbn [snd]. replace (str_eqb a a) with true
      by (symmetry; now apply str_eqb_eq). reflexivity.
  - destruct (str_eqb a (snd e)) eqn:E.
    + apply str_eqb_eq in E. subst a. exfalso. apply Ha.
      apply in_map_iff. exists e. auto.
    + now apply IH.
Qed.

Lemma getNodeByAddress_encode (this : Aracari) (r n : Node) (p : list nat) :
  root this = Some r -> p <> [] -> nodeAt r p = Some n ->
  getNodeByAddress this (encode p) = Some (p, n).
Proof.
  intros Hr Hp Hn. destruct p as [|i p]; [contradiction|].
  unfold getNodeByAddress. rewrite Hr, decode_encode. cbn [option_map].
  now rewrite walkNodes_path, Hn.
Qed.

(** X8.  On the mapping of a tree, [getTextByAddress] gives a text exactly
    for the addresses of the text leaves, and the text is the text content of
    the leaf at that address; for every other text given as an address (the
    address of an element, an address outside the tree, a text that is no
    address) it gives null. *)
Theorem getTextByAddress_of_tree :
  forall (options : Options) (r : Node) (address t : str),
    let this := constructor (inl r) options in
    getTextByAddress this address = Some t
    <-> exists p n,
          address = encode p
          /\ TextLeaf (textNodeType (config this)) r p
          /\ nodeAt r p = Some n
          /\ t = textContent n.
Proof.
  intros options r address t this.
  destruct (mapping_of_tree options r) as (Em & Hnd & _). fold this in Em, Hnd.
  unfold getTextByAddress, getMappingFromAddress. split.
  - destruct (find _ _) as [[t' a]|] eqn:Ef; [|discriminate].
    intros H. inversion H; subst t'. clear H.
    apply find_some in Ef. destruct Ef as [Hin Ha].
    apply str_eqb_eq in Ha. subst a.
    rewrite Em in Hin. apply in_map_iff in Hin. destruct Hin as (p & Ep & Hp).
    apply textLeafPaths_spec in Hp.
    destruct (TextLeaf_nodeAt _ _ _ Hp) as [_ (n & Hn & _)].
    exists p, n. unfold entryAt in Ep. rewrite Hn in Ep. cbn [app] in Ep.
    inversion Ep; subst. auto.
  - intros (p & n & -> & Hp & Hn & ->).
    assert (Hin : In (textContent n, encode p) (mapping this)).
    { rewrite Em. apply in_map_iff. exists p. split.
      - unfold entryAt. now rewrite Hn.
      - now apply textLeafPaths_spec. }
    pose proof (find_unique_address _ _ Hnd Hin) as Hf. cbn [snd] in Hf.
    now rewrite Hf.
Qed.

(** X7.  On the mapping of a tree, when a lookup keeps some entries, the
    address that [getAddressForText] returns is that of the first of them;
    [getTextByAddress] gives back the text of that entry for it, and
    [getTextNode] returns the node at that address, a node of the text type
    whose text content is the text of the entry. *)
Theorem lookup_address_text_node_agree :
  forall (options : Options) (r : Node) (text : str) (cs pw : option bool)
         (e : MappingEntry) (others : Mapping),
    let this := constructor (inl r) options in
    getMappingsForText this text cs pw = inr (e :: others) ->
    getAddressForText this text cs pw = inr (Some (snd e))
    /\ getTextByAddress this (snd e) = Some (fst e)
    /\ exists p n,
         snd e = encode p
         /\ getTextNode this text cs pw = inr (Some (p, n))
         /\ nodeAt r p = Some n
         /\ nodeType n = textNodeType (config this)
         /\ textContent n = fst e.
Proof.
  intros options r text cs pw e others this Hm.
  destruct (mapping_of_tree options r) as (Em & Hnd & Hr).
  fold this in Em, Hnd, Hr.
  rewrite getMappingsForText_ok in Hm.
  assert (Hf : filter (entryMatches (lookupPattern text (orDefault true cs)
                                                   (orDefault false pw)))
                      (mapping this) = e :: others) by congruence.
  clear Hm.
  assert (Ea : getAddressForText this text cs pw = inr (Some (snd e)))
    by (rewrite getAddressForText_ok, Hf; reflexivity).
  assert (Hin : In e (mapping this)).
  { eapply proj1. apply filter_In. rewrite Hf. now left. }
  split; [exact Ea|]. split.
  - unfold getTextByAddress, getMappingFromAddress.
    now rewrite (find_unique_address _ _ Hnd Hin).
  - pose proof Hin as Hin'. rewrite Em in Hin'. apply in_map_iff in Hin'.
    destruct Hin' as (p & Ep & Hp). apply textLeafPaths_spec in Hp.
    destruct (TextLeaf_nodeAt _ _ _ Hp) as [Hne (n & Hn & Ht)].
    unfold entryAt in Ep. rewrite Hn in Ep. cbn [app] in Ep. subst e.
    exists p, n. cbn [fst snd]. split; [reflexivity|]. split; [|auto].
    unfold getTextNode. cbn [snd] in Ea.
    replace (getAddressForText this text (Some (orDefault true cs))
                               (Some (orDefault false pw)))
      with (getAddressForText this text cs pw)
      by (now rewrite !getAddressForText_ok).
    rewrite Ea. pose proof (encode_nonempty p Hne) as Hne'.
    destruct (encode p) eqn:Eenc; [contradiction|]. cbn [truthy].
    rewrite <- Eenc. f_equal. now apply getNodeByAddress_encode with r.
Qed.

(** X7 at the tree of "Hello World" and the query "World". *)
Lemma lookup_address_text_node_agree_witness :
  let this := constructor (inl (paragraph "Hello World")) noOptions in
  getAddressForText this (lit "World") None None = inr (Some (lit "0.0"))
  /\ getTextByAddress this (lit "0.0") = Some (lit "Hello World")
  /\ exists p n,
       lit "0.0" = encode p
       /\ getTextNode this (lit "World") None None = inr (Some (p, n))
       /\ nodeAt (paragraph "Hello World") p = Some n
       /\ nodeType n = textNodeType (config this)
       /\ textContent n = lit "Hello World".
Proof.
  cbv zeta.
  apply (lookup_address_text_node_agree noOptions (paragraph "Hello World")
           (lit "World") None None (lit "Hello World", lit "0.0") []).
  vm_compute. reflexivity.
Defined.

(** X14.  The empty query is found in every text: a lookup of the empty
    text without [preserveWord] keeps the whole mapping, whatever
    [caseSensitive], so that [getAddressForText] gives the address of the
    first entry, and null only for an empty mapping. *)
Theorem empty_query_matches_every_entry :
  forall (this : Aracari) (cs : option bool),
    getMappingsForText this [] cs None = inr (mapping this)
    /\ getMappingsForText this [] cs (Some false) = inr (mapping this)
    /\ getAddressesForText this [] cs None = inr (Some (map snd (mapping this)))
    /\ getAddressForText this [] cs None
       = inr (option_map snd (hd_error (mapping this))).
Proof.
  intros this cs.
  assert (E : filter (entryMatches (lookupPattern [] (orDefault true cs) false))
                     (mapping this) = mapping this).
  { apply forallb_filter_id. apply forallb_forall. intros e _.
    apply entryMatches_Occurs. exists [], [], (fst e).
    split; [reflexivity|]. split; [constructor|discriminate]. }
  rewrite !getMappingsForText_ok, getAddressesForText_ok, getAddressForText_ok.
  cbn [orDefault]. rewrite E. repeat split.
  clear E. destruct (mapping this) as [|e l]; reflexivity.
Qed.

(** ** The text of the tree *)

Lemma Array_join_empty_sep (l : list str) : Array_join [] l = concat l.
Proof.
  assert (E : forall l : list str, flat_map (fun cur => [] ++ cur) l = concat l).
  { intros l'. induction l' as [|d l' IH]; [reflexivity|].
    cbn [flat_map concat]. rewrite IH. reflexivity. }
  destruct l as [|c l]; [reflexivity|].
  rewrite Array_join_cons, E. reflexivity.
Qed.

(** With the text type of the DOM, the texts of the entries of a node that
    is not itself a text node make up the text below it. *)
Lemma getTextNodeMapping_text (cfg : Config) (n : Node) :
  textNodeType cfg = TEXT_NODE ->
  forall base, (forall d, n <> Text d) ->
               concat (map fst (getTextNodeMapping cfg n base)) = descendantText n.
Proof.
  intros Hcfg.
  induction n as [d|d|cs IH] using Node_ind_children; intros base Hn.
  - now contradiction (Hn d).
  - reflexivity.
  - cbn [getTextNodeMapping descendantText]. generalize 0.
    induction IH as [|c cs Hc _ IHcs]; intros i; [reflexivity|].
    cbn [flatMap flat_map]. rewrite map_app, concat_app.
    change (flatMap ?f cs (S i)) with (flatMap f cs (S i)).
    rewrite IHcs by (intros d; discriminate). f_equal.
    rewrite Hcfg. destruct c as [d|d|cs'].
    + cbn. now rewrite List.app_nil_r.
    + reflexivity.
    + cbn [nodeType N.eqb TEXT_NODE Pos.eqb childNodes].
      destruct cs' as [|c' cs']; [reflexivity|].
      apply Hc. intros d; discriminate.
Qed.

(** X9.  With the text type of the DOM (no [textNodeType] option, or 0, or
    3), [getText()] on the mapping of a tree is the text content of the root
    element: the texts of all the text nodes below it, in document order,
    without the comments. *)
Theorem getText_is_textContent :
  forall (children : list Node) (create : option (str -> Node)),
    getText (constructor (inl (Element children)) (mkOptions None create))
    = textContent (Element children)
    /\ getText (constructor (inl (Element children)) (mkOptions (Some 0%N) create))
       = textContent (Element children)
    /\ getText (constructor (inl (Element children)) (mkOptions (Some TEXT_NODE) create))
       = textContent (Element children).
Proof.
  intros children create. unfold getText.
  repeat split; rewrite Array_join_empty_sep;
    cbn [constructor mapping opt_textNodeType N.eqb TEXT_NODE Pos.eqb];
    (apply getTextNodeMapping_text; [reflexivity|intros d; discriminate]).
Qed.








(** ** An instance without a tree; addresses that are not addresses *)

(** X11.  An instance made from a mapping has no tree: it holds the mapping
    given, its lookups in the mapping work as on any mapping, every address
    resolves to no node, [getTextNode] gives no node, every [replaceText]
    throws the not-found error and changes nothing, and [remap()] without a
    mapping throws a type error and changes nothing, while [remap(m)] takes
    [m]. *)
Theorem instance_without_tree :
  forall (m : Mapping) (options : Options),
    let this := constructor (inr m) options in
    mapping this = m
    /\ root this = None
    /\ (forall address, getNodeByAddress this address = None)
    /\ (forall text cs pw, getTextNode this text cs pw = inr None)
    /\ (forall text nodes ropts,
           replaceText text nodes ropts this
           = (inl (Error (notFoundMessage text)), this))
    /\ remap None this = (inl TypeError, this)
    /\ (forall m', mapping (snd (remap (Some m') this)) = m'
                   /\ fst (remap (Some m') this) = inr tt).
Proof.
  intros m options this.
  assert (Hn : forall address, getNodeByAddress this address = None).
  { intros address. unfold getNodeByAddress. cbn [root this constructor option_map].
    apply walkNodes_None. }
  assert (Ht : forall text cs pw, getTextNode this text cs pw = inr None).
  { intros text cs pw. unfold getTextNode. rewrite getAddressForText_ok.
    destruct (filter _ _) as [|e l]; [reflexivity|].
    destruct (truthy (snd e)); [now rewrite Hn|reflexivity]. }
  split; [reflexivity|]. split; [reflexivity|]. split; [exact Hn|].
  split; [exact Ht|]. split; [|split; [reflexivity|split; reflexivity]].
  intros text nodes ropts.
  destruct (replaceText_run this text nodes ropts) as (node & Et & ->).
  assert (En : node = None).
  { unfold targetNode in Et. destruct (at_ ropts) as [[|c a]|].
    - rewrite Ht in Et. congruence.
    - rewrite Hn in Et. congruence.
    - rewrite Ht in Et. congruence. }
  now rewrite En.
Qed.

Lemma walkNodes_not_index (path : list number) (k : number) :
  In k path -> (forall i, k <> index i) ->
  forall parent, walkNodes parent path = None.
Proof.
  intros Hin Hk [[loc n]|]; [|apply walkNodes_None].
  destruct (walkNodes (Some (loc, n)) path) as [ref|] eqn:E;
    [|assumption || reflexivity].
  exfalso.
  apply walkNodes_sound in E. destruct E as (p & _ & _ & ->).
  apply in_map_iff in Hin. destruct Hin as (i & <- & _).
  now contradiction (Hk i).
Qed.

Lemma trimStart_whitespace (ws s : str) :
  Forall (fun c => isWhiteSpace c = true) ws -> trimStart (ws ++ s) = trimStart s.
Proof.
  induction 1 as [|c ws Hc _ IH]; [reflexivity|].
  cbn [app trimStart]. now rewrite Hc.
Qed.

Lemma takeDigits_app (ds junk : str) :
  Forall (fun c => isDigit c = true) ds ->
  match junk with c :: _ => isDigit c = false | [] => True end ->
  takeDigits (ds ++ junk) = ds.
Proof.
  intros Hd Hj. induction Hd as [|c ds Hc _ IH].
  - destruct junk as [|c junk]; [reflexivity|]. cbn. now rewrite Hj.
  - cbn [app takeDigits]. now rewrite Hc, IH.
Qed.

(** X12.  [getNodeByAddress] reads each segment of the address as
    [parseInt] does: white space before the digits and whatever follows them
    are passed over, so such a segment stands for the same child index as
    its digits alone.  When a segment has no digits to read (an empty
    segment, the empty address) or reads as a negative number, the address
    resolves to no node.  The node returned is never the root: its location
    has at least one index. *)
Theorem getNodeByAddress_reads_segments :
  forall (this : Aracari) (address : str),
    (forall seg, In seg (String_splitOn "."%char address) ->
                 parseInt seg = NaN ->
                 getNodeByAddress this address = None)
    /\ (forall seg z, In seg (String_splitOn "."%char address) ->
                      parseInt seg = Num z -> (z < 0)%Z ->
                      getNodeByAddress this address = None)
    /\ parseInt [] = NaN
    /\ getNodeByAddress this [] = None
    /\ (getNodeByAddress this address = None
        \/ exists i loc n, getNodeByAddress this address = Some (i :: loc, n))
    /\ (forall ws n junk,
           Forall (fun c => isWhiteSpace c = true) ws ->
           match junk with c :: _ => isDigit c = false | [] => True end ->
           parseInt (ws ++ Number_toString n ++ junk) = index n).
Proof.
  intros this address.
  assert (B : forall seg, In seg (String_splitOn "."%char address) ->
                          (forall i, parseInt seg <> index i) ->
                          getNodeByAddress this address = None).
  { intros seg Hin Hk. unfold getNodeByAddress.
    apply (walkNodes_not_index _ (parseInt seg)); [|exact Hk].
    now apply in_map. }
  split; [|split; [|split; [reflexivity|split; [|split]]]].
  - intros seg Hin Hp. apply (B seg Hin). rewrite Hp. discriminate.
  - intros seg z Hin Hp Hz. apply (B seg Hin). rewrite Hp.
    unfold index. intros i H. inversion H. lia.
  - unfold getNodeByAddress. cbn [String_splitOn map].
    apply (walkNodes_not_index _ NaN); [now left|discriminate].
  - destruct (getNodeByAddress this address) as [[loc n]|] eqn:E; [right|now left].
    unfold getNodeByAddress in E.
    destruct (root this) as [r|]; cbn [option_map] in E;
      [|rewrite walkNodes_None in E; discriminate].
    apply walkNodes_sound in E. destruct E as (p & Ef & _ & Ep).
    cbn [fst app] in Ef. subst p.
    destruct loc as [|i loc]; [|eauto].
    pose proof (String_splitOn_nonempty "."%char address) as Hs.
    destruct (String_splitOn "."%char address); [contradiction|discriminate].
  - intros ws n junk Hws Hj.
    pose proof (Number_toString_digits n) as Hd.
    pose proof (Number_toString_nonempty n) as Hn.
    pose proof (digitsValue_toString n) as Hv.
    unfold parseInt. rewrite trimStart_whitespace by assumption.
    destruct (Number_toString n) as [|c s] eqn:En; [contradiction|].
    inversion Hd as [|c' s' Hc Hs]; subst c' s'.
    destruct (isDigit_cases c Hc) as (Hw & Hm & Hp & _).
    cbn [app trimStart]. rewrite Hw, Hm, Hp.
    change (c :: s ++ junk) with ((c :: s) ++ junk).
    rewrite (takeDigits_app (c :: s) junk Hd Hj). rewrite Hv. reflexivity.
Qed.

(** ** What [replaceText] does to the tree *)






